(** * SimpleSTL::UniquePtr — a shallow embedding of [SimpleSTL/UniquePtr.hpp]

    The header defines the release policies [DefaultDeleter<T>], the helper
    [exchange], the class template [UniquePtr<T, Deleter>] with its partial
    specialisation for [T[]], and the factory [makeUnique].

    The embedding keeps an explicit program state:
    - a store of live [UniquePtr] objects, one [m_p] cell per object,
      addressed by the object's location (so that [this != &that] is a
      comparison of locations and aliasing is visible);
    - the set of blocks obtained from [new] that are still allocated;
    - the log of side effects in program order: release-policy calls
      [Deleter{}(p)] and assignments to [m_p] cells.

    Member functions are computations in a state monad whose results also
    cover a thrown exception, a call whose template instantiation is
    ill-formed, and the use of an object outside its lifetime.

    The member functions that call the release policy come in two forms.
    [destructor], [move_assign] and [reset] take the element type to have no
    [UniquePtr] member, so that releasing an object ends no other lifetime;
    [destructor_in], [move_assign_in] and [reset_in] take the layout of the
    element type as a parameter and run the destructors of the members of
    the released object, as [delete] does.  The two agree on objects
    without such members. *)

From stdpp Require Import base option gmap sets.

Set Default Proof Using "Type".

Module SimpleSTL.

(** ** Types, handles and release policies *)

(** The element types a [UniquePtr] is instantiated over, as far as template
    selection can tell them apart: [FILE], an array of unknown bound [T[]],
    and any other object type. *)
Inductive ctype : Type :=
  | TObject (id : N)
  | TFILE
  | TArray (elem : ctype).

(** A raw pointer [T *]: an address, [0] being the null pointer. *)
Abbreviation ptr := N (only parsing).
Definition nullptr : ptr := 0%N.

(** Contextual conversion of a pointer to [bool], as in [if (m_p)]. *)
Definition to_bool (p : ptr) : bool := negb (p =? nullptr)%N.

(** The type argument [Deleter]: an instance of the header's own
    [DefaultDeleter], or a policy supplied by the user of the template. *)
Inductive deleter : Type :=
  | DefaultDeleter (T : ctype)
  | UserDeleter (id : N).

(** The statement a [DefaultDeleter] runs on its argument. *)
Inductive release_stmt : Type :=
  | delete_object (p : ptr)      (* delete p;   *)
  | delete_array (p : ptr)       (* delete[] p; *)
  | fclose (p : ptr).            (* fclose(p);  *)

(** [DefaultDeleter<T>::operator()]: the primary template, the partial
    specialisation for [T[]] and the full specialisation for [FILE]. *)
Definition DefaultDeleter_call (T : ctype) (p : ptr) : release_stmt :=
  match T with
  | TArray _ => delete_array p
  | TFILE => fclose p
  | TObject _ => delete_object p
  end.

(** Logged side effects: a call [Deleter{}(p)], and an assignment of [v] to
    the [m_p] of the object at [l]. *)
Inductive event : Type :=
  | Invoke (D : deleter) (p : ptr)
  | Store (l : N) (v : ptr).

(** Exceptions that can leave a [new]-expression. *)
Inductive exn : Type :=
  | bad_alloc
  | ctor_exception (code : N).

(** ** Program state *)

Abbreviation loc := N (only parsing).

Record state : Type := mkState {
  objs : gmap N N;        (* live UniquePtr objects: location ↦ m_p *)
  heap : gset N;          (* blocks returned by new and not yet deleted *)
  log : list event        (* side effects so far, oldest first *)
}.

Definition set_objs (f : gmap N N → gmap N N) (s : state) : state :=
  mkState (f (objs s)) (heap s) (log s).
Definition set_heap (f : gset N → gset N) (s : state) : state :=
  mkState (objs s) (f (heap s)) (log s).
Definition push_log (e : event) (s : state) : state :=
  mkState (objs s) (heap s) (log s ++ [e]).

(** ** The monad of member-function bodies *)

Inductive result (A : Type) : Type :=
  | Ok (a : A)          (* normal completion *)
  | Throw (e : exn)     (* an exception propagates to the caller *)
  | IllFormed           (* the call does not instantiate: the program is rejected *)
  | NoObject.           (* access to an object outside its lifetime *)
Arguments Ok {A} a.
Arguments Throw {A} e.
Arguments IllFormed {A}.
Arguments NoObject {A}.

Definition M (A : Type) : Type := state → result A * state.

#[global] Instance M_ret : MRet M := λ A a s, (Ok a, s).
#[global] Instance M_bind : MBind M := λ A B f m s,
  match m s with
  | (Ok a, s') => f a s'
  | (Throw e, s') => (Throw e, s')
  | (IllFormed, s') => (IllFormed, s')
  | (NoObject, s') => (NoObject, s')
  end.

Definition ill_formed {A} : M A := λ s, (IllFormed, s).

(** cv-qualification of an lvalue. *)
Inductive qual : Type := q_mutable | q_const.

(** An lvalue of pointer type: the cell it designates and its qualifier. *)
Record lvalue : Type := mkLvalue { lv_loc : loc; lv_qual : qual }.

(** The member [m_p] of the object at [obj], named from a member function
    whose [this] has qualifier [q]: inside a [const] member function the
    expression [m_p] has type [T *const]. *)
Definition m_p (obj : loc) (q : qual) : lvalue := mkLvalue obj q.

(** Reading a cell. *)
Definition load (l : loc) : M ptr := λ s,
  match objs s !! l with
  | Some p => (Ok p, s)
  | None => (NoObject, s)
  end.

(** Assigning to a cell. *)
Definition assign (l : loc) (v : ptr) : M unit := λ s,
  match objs s !! l with
  | Some _ => (Ok tt, push_log (Store l v) (set_objs <[l := v]> s))
  | None => (NoObject, s)
  end.

(** A new object comes to life at a location not in use, its [m_p] set to
    [v]; the location is the constructor's [this]. *)
Definition construct (v : ptr) : M loc := λ s,
  let this := fresh (dom (objs s)) in
  (Ok this, push_log (Store this v) (set_objs <[this := v]> s)).

(** The end of an object's lifetime. *)
Definition end_lifetime (this : loc) : M unit := λ s,
  (Ok tt, set_objs (delete this) s).

(** The effect of a policy's body on the allocated blocks, for a handle
    that is the address [new] returned: [delete] and [delete[]] give the
    block back, anything else leaves the heap alone.  ([release_object]
    below covers handles adjusted by a pointer conversion.) *)
Definition release_heap (D : deleter) (p : ptr) (h : gset N) : gset N :=
  match D with
  | DefaultDeleter T =>
      match DefaultDeleter_call T p with
      | delete_object q | delete_array q => h ∖ {[q]}
      | fclose _ => h
      end
  | UserDeleter _ => h
  end.

(** [Deleter{}(p)], for an object whose destructor ends the lifetime of no
    [UniquePtr] (an element type without [UniquePtr] members).
    [release_object] below is the general form, which this one agrees with
    on such objects ([invoke_in_leaf]). *)
Definition invoke (D : deleter) (p : ptr) : M unit := λ s,
  (Ok tt, push_log (Invoke D p) (set_heap (release_heap D p) s)).

(** ** exchange (lines 33-39)

    [T tmp = std::move(dst); dst = std::forward<U>(val); return tmp;]
    The header calls it on [m_p] cells only, with [val] the null pointer.
    When the argument for [dst] is a const lvalue, the template parameter
    [T] is deduced const-qualified and the assignment to [dst] is
    ill-formed. *)
Definition exchange (dst : lvalue) (val : ptr) : M ptr :=
  match lv_qual dst with
  | q_const => ill_formed
  | q_mutable =>
      tmp ← load (lv_loc dst);
      assign (lv_loc dst) val;;
      mret tmp
  end.

(** ** UniquePtr<T, Deleter> (lines 42-116) *)

(** [if (m_p) Deleter{}(m_p);] *)
Definition release_if_owned (Deleter : deleter) (p : ptr) : M unit :=
  if to_bool p then invoke Deleter p else mret tt.

(** [UniquePtr(std::nullptr_t dummy = nullptr) { m_p = nullptr; }] *)
Definition UniquePtr_nullptr : M loc := construct nullptr.

(** [explicit UniquePtr(T *p) { m_p = p; }] *)
Definition UniquePtr_ptr (p : ptr) : M loc := construct p.

(** [UniquePtr(UniquePtr<U, UDeleter> &&that) { m_p = exchange(that.m_p, nullptr); }]
    The value returned by [exchange] is a [U *]; [convert] is the implicit
    pointer conversion from [U *] to [T *] that the [requires] clause asks
    for, applied on the assignment to [m_p]. *)
Definition UniquePtr_convert (convert : ptr → ptr) (that : loc) : M loc :=
  p ← exchange (m_p that q_mutable) nullptr;
  construct (convert p).

(** [UniquePtr(UniquePtr &&that) { m_p = exchange(that.m_p, nullptr); }] *)
Definition UniquePtr_move (that : loc) : M loc :=
  p ← exchange (m_p that q_mutable) nullptr;
  construct p.

(** [~UniquePtr() { if (m_p) Deleter{}(m_p); }], after which the object's
    lifetime is over. *)
Definition destructor (Deleter : deleter) (this : loc) : M unit :=
  p ← load this;
  release_if_owned Deleter p;;
  end_lifetime this.

(** [UniquePtr &operator=(UniquePtr &&that)]: returns [*this]. *)
Definition move_assign (Deleter : deleter) (this that : loc) : M loc :=
  (if decide (this ≠ that) then
     p ← load this;
     release_if_owned Deleter p;;
     q ← exchange (m_p that q_mutable) nullptr;
     assign this q
   else mret tt);;
  mret this.

(** [T *get() const { return m_p; }] *)
Definition get (this : loc) : M ptr := load this.

(** [T *release() const { return exchange(m_p, nullptr); }]
    The function is const-qualified, so [m_p] is a const lvalue here. *)
Definition release (this : loc) : M ptr :=
  exchange (m_p this q_const) nullptr.

(** [void reset(T *p = nullptr) { if (m_p) Deleter{}(m_p); m_p = p; }] *)
Definition reset (Deleter : deleter) (this : loc) (p : ptr) : M unit :=
  old ← load this;
  release_if_owned Deleter old;;
  assign this p.

(** [reset()] with the argument left to its default, [nullptr]. *)
Definition reset_default (Deleter : deleter) (this : loc) : M unit :=
  reset Deleter this nullptr.

(** ** Template arguments and the specialisation for [T[]] (lines 42, 118-119) *)

(** The arguments a template-id [UniquePtr<T>] or [UniquePtr<T, D>] stands
    for: an omitted second argument is the default argument of the primary
    template, [DefaultDeleter<T>], with [T] the first argument as written. *)
Definition template_args (T : ctype) (D : option deleter) : ctype * deleter :=
  (T, default (DefaultDeleter T) D).

(** The class whose members an object of [UniquePtr<T, Deleter>] runs.
    [UniquePtr<T[], Deleter>] declares no member of its own and derives from
    [UniquePtr<T, Deleter>]: the element type loses its [[]], the policy is
    handed on as it is. *)
Fixpoint member_class (T : ctype) (Deleter : deleter) : ctype * deleter :=
  match T with
  | TArray U => member_class U Deleter
  | TObject _ | TFILE => (T, Deleter)
  end.

(** The policy the destructor of a [UniquePtr<T>] / [UniquePtr<T, D>] calls. *)
Definition Deleter_of (T : ctype) (D : option deleter) : deleter :=
  (member_class (template_args T D).1 (template_args T D).2).2.

(** Destruction of an object declared as [UniquePtr<T>] / [UniquePtr<T, D>]. *)
Definition destroy (T : ctype) (D : option deleter) (this : loc) : M unit :=
  destructor (Deleter_of T D) this.


(** The release-policy calls among the logged effects. *)
Definition policy_call (e : event) : option (deleter * ptr) :=
  match e with
  | Invoke D p => Some (D, p)
  | Store _ _ => None
  end.
Definition calls (s : state) : list (deleter * ptr) := omap policy_call (log s).

(** ** makeUnique (lines 122-125) *)

Section Allocation.
Context {Args : Type}.

(** The allocation function behind [new]: given the blocks in use it
    returns a block or throws. *)
Variable operator_new : gset N → exn + N.

(** The constructor of [T] selected by the arguments: [None] when it
    completes, [Some e] when it exits by throwing [e]. *)
Variable T_ctor : Args → option exn.

(** The new-expression [new T(args...)]: obtain storage, then construct.
    If the allocation function throws, nothing was obtained; if the
    constructor throws, the storage is given back before the exception
    leaves the expression. *)
Definition new_expr (args : Args) : M ptr := λ s,
  match operator_new (heap s) with
  | inl e => (Throw e, s)
  | inr p =>
      match T_ctor args with
      | Some e => (Throw e, s)
      | None => (Ok p, set_heap (union {[p]}) s)
      end
  end.

(** [return UniquePtr<T>(new T(std::forward<Args>(args)...));] *)
Definition makeUnique (args : Args) : M loc :=
  p ← new_expr args;
  UniquePtr_ptr p.
End Allocation.

(** ** Vocabulary of the statements *)

(** What [if (m_p) Deleter{}(m_p);] adds to the log. *)
Definition released (Deleter : deleter) (p : ptr) : list event :=
  if to_bool p then [Invoke Deleter p] else [].

(** A state with two live objects: the one at [3] owns the block [7], the
    one at [5] owns nothing. *)
Definition st_example : state :=
  mkState {[ 3%N := 7%N; 5%N := 0%N ]} {[ 7%N ]} [].

(** An allocation function for the examples: room for [limit] blocks, the
    next block at an address that is neither null nor in use. *)
Definition bump_new (limit : nat) (h : gset N) : exn + N :=
  if decide (size h < limit) then inr (fresh ({[nullptr]} ∪ h))
  else inl bad_alloc.

(** A constructor for the examples: it throws on the argument [0]. *)
Definition picky_ctor (arg : N) : option exn :=
  if (arg =? 0)%N then Some (ctor_exception 1) else None.

(** A pointer conversion for the examples: a base subobject at offset 8. *)
Definition to_second_base (p : N) : N :=
  if (p =? nullptr)%N then nullptr else (p + 8)%N.

(** ** makeUniqueForOverwrite (lines 127-131) *)

Section AllocationForOverwrite.
Variable operator_new : gset N → exn + N.

(** Default-initialisation of a [T]: [None] when it completes, [Some e]
    when the default constructor exits by throwing [e]. *)
Variable T_default_init : option exn.

(** [return UniquePtr<T>(new T);]  The new-expression has no initialiser:
    storage is obtained as for [new T(args...)] and the object is
    default-initialised. *)
Definition makeUniqueForOverwrite : M loc :=
  p ← new_expr operator_new (λ _ : unit, T_default_init) tt;
  UniquePtr_ptr p.
End AllocationForOverwrite.

(** ** Ownership invariants *)

(** The state [if (m_p) Deleter{}(m_p);] leaves behind. *)
Definition after_release (Deleter : deleter) (p : ptr) (s : state) : state :=
  if to_bool p then push_log (Invoke Deleter p) (set_heap (release_heap Deleter p) s)
  else s.

(** The policies whose body gives the block back to the heap: the
    [DefaultDeleter] of an object type and of an array type. *)
Definition frees (D : deleter) : bool :=
  match D with
  | DefaultDeleter (TObject _) | DefaultDeleter (TArray _) => true
  | DefaultDeleter TFILE | UserDeleter _ => false
  end.

(** The instance at [a] owns the non-null handle [p]. *)
Definition owns (m : gmap N N) (a p : N) : Prop :=
  m !! a = Some p ∧ p ≠ nullptr.

(** No handle has two owners. *)
Definition sole_owner (m : gmap N N) : Prop :=
  ∀ a b p, owns m a p → owns m b p → a = b.

(** Every owned handle is a block that is still allocated. *)
Definition no_dangling (m : gmap N N) (h : gset N) : Prop :=
  ∀ a p, owns m a p → p ∈ h.

(** Every allocated block has an owner. *)
Definition no_leak (m : gmap N N) (h : gset N) : Prop :=
  ∀ p, p ∈ h → ∃ a, owns m a p.

Definition managed_by (m : gmap N N) (h : gset N) : Prop :=
  sole_owner m ∧ no_dangling m h ∧ no_leak m h.

Definition managed (s : state) : Prop := managed_by (objs s) (heap s).

(** A result that is a normal completion or a thrown exception. *)
Definition completes {A} (r : result A) : Prop :=
  match r with Ok _ | Throw _ => True | IllFormed | NoObject => False end.

(** The state before anything has been constructed or allocated. *)
Definition st_initial : state := mkState ∅ ∅ [].

(** ** Client code

    Straight-line code that uses one instantiation [UniquePtr<T>], one
    statement per use of the header, naming instances by their location. *)

Section Client.
Context {Args : Type}.
Variable operator_new : gset N → exn + N.
Variable T_ctor : Args → option exn.
Variable T_default_init : option exn.
Variable Deleter : deleter.

Inductive stmt : Type :=
  | s_makeUnique (args : Args)          (* auto p = makeUnique<T>(args...);      *)
  | s_makeUniqueForOverwrite            (* auto p = makeUniqueForOverwrite<T>(); *)
  | s_default                           (* UniquePtr<T> p;                       *)
  | s_move (that : N)                   (* UniquePtr<T> p(std::move(that));      *)
  | s_move_assign (this that : N)       (* this = std::move(that);               *)
  | s_reset (this : N)                  (* this.reset();                         *)
  | s_scope_exit (this : N).            (* this goes out of scope                *)

Definition exec (c : stmt) : M unit :=
  match c with
  | s_makeUnique args => makeUnique operator_new T_ctor args;; mret tt
  | s_makeUniqueForOverwrite =>
      makeUniqueForOverwrite operator_new T_default_init;; mret tt
  | s_default => UniquePtr_nullptr;; mret tt
  | s_move that => UniquePtr_move that;; mret tt
  | s_move_assign this that => move_assign Deleter this that;; mret tt
  | s_reset this => reset_default Deleter this
  | s_scope_exit this => destructor Deleter this
  end.

Fixpoint run (prog : list stmt) : M unit :=
  match prog with
  | [] => mret tt
  | c :: rest => exec c;; run rest
  end.
End Client.

(** A state with two live objects that each own a block. *)
Definition st_two_owners : state :=
  mkState {[ 3%N := 7%N; 5%N := 9%N ]} {[ 7%N; 9%N ]} [].

(** A client for the examples: make an instance, move it, add an empty
    one and an uninitialised one, move-assign (also onto itself), reset,
    and let all four instances go out of scope. *)
Definition client_example : list (@stmt N) :=
  [s_makeUnique 42%N; s_move 0%N; s_default; s_makeUniqueForOverwrite;
   s_move_assign 2%N 1%N; s_move_assign 3%N 3%N; s_reset 3%N;
   s_scope_exit 3%N; s_scope_exit 2%N; s_scope_exit 1%N; s_scope_exit 0%N].

(** ** Element types that hold owning pointers

    [delete p] runs the destructor of the object at [p] before it gives the
    storage back.  When the element type has [UniquePtr] members (a list
    node with a [next] member), that destructor runs [~UniquePtr] on each
    of them, which can release further objects in turn.  Where the members
    of an object live, and which block a handle points into, is a matter of
    the element type's layout. *)

Record layout : Type := mkLayout {
  (* the UniquePtr members of the object in the block at an address, each
     with the Deleter of its type, in the order their destructors run *)
  members : N → list (N * deleter);
  (* the block a handle points into: the handle itself unless it was
     adjusted by a pointer conversion *)
  complete : N → N
}.

(** An element type without [UniquePtr] members whose handles are the
    addresses [new] returned. *)
Definition flat_layout : layout := mkLayout (λ _, []) id.

(** The destructor of one member, followed by the rest [k] of the
    destruction: the member's lifetime ends as its destructor starts, and
    the destructor releases what the member holds through [rec], the
    release of an object ([None] when the nesting is deeper than any number
    of live instances allows).  A member that is not alive means the object
    is destroyed a second time. *)
Definition destroy_member (rec : option (deleter → N → M unit))
    (m : N * deleter) (k : M unit) : M unit := λ s,
  match objs s !! m.1 with
  | None => (NoObject, s)
  | Some q =>
      let s' := set_objs (delete m.1) s in
      if to_bool q then
        match rec with
        | None => (NoObject, s')
        | Some release => (release m.2 q;; k) s'
        end
      else k s'
  end.

(** [Deleter{}(p)] for an element type with layout [L].  The call is logged;
    a policy that frees then destroys the members of the object and gives
    its block back.  [fuel] bounds the depth of nested releases. *)
Fixpoint release_object (L : layout) (fuel : nat) (D : deleter) (p : N)
    : M unit := λ s,
  if frees D then
    foldr (destroy_member
             match fuel with
             | O => None
             | S fuel' => Some (release_object L fuel')
             end)
          (λ t, (Ok tt, set_heap (λ h, h ∖ {[complete L p]}) t))
          (members L (complete L p))
          (push_log (Invoke D p) s)
  else (Ok tt, push_log (Invoke D p) s).

(** Every nested release is preceded by the end of one more lifetime, so
    the number of live instances is fuel enough. *)
Definition invoke_in (L : layout) (D : deleter) (p : N) : M unit := λ s,
  release_object L (size (objs s)) D p s.

(** [if (m_p) Deleter{}(m_p);] *)
Definition release_if_owned_in (L : layout) (Deleter : deleter) (p : N)
    : M unit :=
  if to_bool p then invoke_in L Deleter p else mret tt.

(** [~UniquePtr() { if (m_p) Deleter{}(m_p); }] *)
Definition destructor_in (L : layout) (Deleter : deleter) (this : N) : M unit :=
  p ← load this;
  release_if_owned_in L Deleter p;;
  end_lifetime this.

(** [UniquePtr &operator=(UniquePtr &&that)] (lines 81-88) *)
Definition move_assign_in (L : layout) (Deleter : deleter) (this that : N)
    : M N :=
  (if decide (this ≠ that) then
     p ← load this;
     release_if_owned_in L Deleter p;;
     q ← exchange (m_p that q_mutable) nullptr;
     assign this q
   else mret tt);;
  mret this.

(** [void reset(T *p = nullptr)] (lines 101-105) *)
Definition reset_in (L : layout) (Deleter : deleter) (this : N) (p : N)
    : M unit :=
  old ← load this;
  release_if_owned_in L Deleter old;;
  assign this p.

(** The object the handle [p] points to has no [UniquePtr] member, and [p]
    is the start of its block. *)
Definition leaf (L : layout) (p : N) : Prop :=
  members L (complete L p) = [] ∧ complete L p = p.

(** Client code over an element type with layout [L]. *)
Section ClientIn.
Context {Args : Type}.
Variable L : layout.
Variable operator_new : gset N → exn + N.
Variable T_ctor : Args → option exn.
Variable T_default_init : option exn.
Variable Deleter : deleter.

Definition exec_in (c : stmt) : M unit :=
  match c with
  | s_makeUnique args => makeUnique operator_new T_ctor args;; mret tt
  | s_makeUniqueForOverwrite =>
      makeUniqueForOverwrite operator_new T_default_init;; mret tt
  | s_default => UniquePtr_nullptr;; mret tt
  | s_move that => UniquePtr_move that;; mret tt
  | s_move_assign this that => move_assign_in L Deleter this that;; mret tt
  | s_reset this => reset_in L Deleter this nullptr
  | s_scope_exit this => destructor_in L Deleter this
  end.

Fixpoint run_in (prog : list stmt) : M unit :=
  match prog with
  | [] => mret tt
  | c :: rest => exec_in c;; run_in rest
  end.
End ClientIn.

(** A list node [struct Node { int value; UniquePtr<Node> next; }]: the
    member [next] of the node at [p] lives at [p + 8] and has the default
    policy of its type. *)
Definition Node : ctype := TObject 1.
Definition Node_layout : layout :=
  mkLayout (λ p, if (p =? nullptr)%N then []
                 else [((p + 8)%N, DefaultDeleter Node)])
           id.

(** A derived object at [7] whose second base subobject is at [15]: a
    handle converted to the base type points into the block at [7]. *)
Definition second_base_layout : layout :=
  mkLayout (λ _, []) (λ p, if (p =? 15)%N then 7%N else p).

(** [head] at [3] owns the node at [16], whose [next] (at [24]) owns the
    node at [32], whose [next] (at [40]) is empty. *)
Definition st_list : state :=
  mkState {[ 3%N := 16%N; 24%N := 32%N; 40%N := 0%N ]} {[ 16%N; 32%N ]} [].

(** [head] at [3] owns the last node, at [32], whose [next] is empty. *)
Definition st_last_node : state :=
  mkState {[ 3%N := 32%N; 40%N := 0%N ]} {[ 32%N ]} [].

(** * Properties *)

(** ** Running the monad *)

Lemma bind_Ok {A B} (m : M A) (f : A → M B) s a s' :
  m s = (Ok a, s') → (m ≫= f) s = f a s'.
Proof. intros Hm. unfold mbind, M_bind. by rewrite Hm. Qed.

Lemma ret_Ok {A} (a : A) s : mret (M := M) a s = (Ok a, s).
Proof. done. Qed.

Lemma load_Ok s l p : objs s !! l = Some p → load l s = (Ok p, s).
Proof. intros Hl. unfold load. by rewrite Hl. Qed.

Lemma assign_Ok s l old v :
  objs s !! l = Some old →
  assign l v s = (Ok tt, push_log (Store l v) (set_objs <[l := v]> s)).
Proof. intros Hl. unfold assign. by rewrite Hl. Qed.

Lemma exchange_Ok s l old v :
  objs s !! l = Some old →
  exchange (m_p l q_mutable) v s
  = (Ok old, push_log (Store l v) (set_objs <[l := v]> s)).
Proof.
  intros Hl. unfold exchange; simpl.
  rewrite (bind_Ok _ _ _ _ _ (load_Ok _ _ _ Hl)).
  by rewrite (bind_Ok _ _ _ _ _ (assign_Ok _ _ _ v Hl)).
Qed.

Lemma construct_fresh (s : state) : objs s !! fresh (dom (objs s)) = None.
Proof. apply not_elem_of_dom, is_fresh. Qed.

Lemma to_bool_nullptr : to_bool nullptr = false.
Proof. done. Qed.

Lemma to_bool_true p : p ≠ nullptr → to_bool p = true.
Proof.
  intros Hp. unfold to_bool. apply negb_true_iff, N.eqb_neq, Hp.
Qed.

Lemma release_if_owned_Ok D p s :
  ∃ s', release_if_owned D p s = (Ok tt, s') ∧
        objs s' = objs s ∧ log s' = log s ++ released D p.
Proof.
  unfold release_if_owned, released. destruct (to_bool p).
  - eexists. split; [reflexivity|]. done.
  - eexists. split; [apply ret_Ok|]. by rewrite app_nil_r.
Qed.

Lemma calls_app s l :
  omap policy_call (log s ++ l) = calls s ++ omap policy_call l.
Proof. apply omap_app. Qed.

(** ** exchange *)

(** C8. For a mutable location [dst] holding [old] and any value [val],
    [exchange(dst, val)] returns [old] and leaves a state that differs from
    the one before only in that [dst] now holds [val]: every other cell and
    the heap are the same, and the one effect logged is the store to [dst]. *)
Theorem exchange_stores_and_returns_old (s : state) (dst : N) (old val : N) :
  objs s !! dst = Some old →
  ∃ s', exchange (mkLvalue dst q_mutable) val s = (Ok old, s') ∧
        objs s' !! dst = Some val ∧
        (∀ l, l ≠ dst → objs s' !! l = objs s !! l) ∧
        heap s' = heap s ∧
        log s' = log s ++ [Store dst val] ∧
        calls s' = calls s.
Proof.
  intros Hdst. eexists. split; [exact (exchange_Ok _ _ _ val Hdst)|].
  simpl. repeat split.
  - apply lookup_insert_eq.
  - intros l Hl. by apply lookup_insert_ne.
  - unfold calls; simpl. rewrite calls_app. apply app_nil_r.
Qed.

Lemma exchange_stores_and_returns_old_witness :
  ∃ s', exchange (mkLvalue 3%N q_mutable) 9%N st_example = (Ok 7%N, s') ∧
        objs s' !! 3%N = Some 9%N ∧
        (∀ l, l ≠ 3%N → objs s' !! l = objs st_example !! l) ∧
        heap s' = heap st_example ∧
        log s' = log st_example ++ [Store 3%N 9%N] ∧
        calls s' = calls st_example.
Proof.
  apply (exchange_stores_and_returns_old st_example 3%N 7%N 9%N).
  reflexivity.
Defined.

(** ** Member functions, step by step *)

Lemma released_nullptr D : released D nullptr = [].
Proof. done. Qed.

Lemma released_nonnull D p : p ≠ nullptr → released D p = [Invoke D p].
Proof. intros Hp. unfold released. by rewrite to_bool_true. Qed.

Lemma destructor_Ok D s a H :
  objs s !! a = Some H →
  ∃ s', destructor D a s = (Ok tt, s') ∧
        objs s' = delete a (objs s) ∧
        log s' = log s ++ released D H.
Proof.
  intros Ha. unfold destructor.
  rewrite (bind_Ok _ _ _ _ _ (load_Ok _ _ _ Ha)).
  destruct (release_if_owned_Ok D H s) as (s1 & Hrel & Hobjs & Hlog).
  rewrite (bind_Ok _ _ _ _ _ Hrel).
  eexists. split; [reflexivity|]. simpl. by rewrite Hobjs, Hlog.
Qed.


Lemma release_IllFormed s a : release a s = (IllFormed, s).
Proof. done. Qed.

Lemma construct_Ok v s :
  ∃ b s', construct v s = (Ok b, s') ∧
          objs s !! b = None ∧
          objs s' = <[b := v]> (objs s) ∧
          heap s' = heap s ∧
          log s' = log s ++ [Store b v].
Proof.
  eexists _, _. split; [reflexivity|]. simpl.
  split; [apply construct_fresh|done].
Qed.

Lemma get_Ok s a H : objs s !! a = Some H → get a s = (Ok H, s).
Proof. apply load_Ok. Qed.

(** ** Destruction *)



(** ** release *)

(** C5 (what the code does). [release] is a [const] member function, so the
    [m_p] it passes to [exchange] is a const lvalue and the call does not
    instantiate: for every instance, holding a handle or not, a call of
    [release] yields no handle and changes nothing. *)
Theorem release_is_ill_formed (s : state) (a : N) :
  release a s = (IllFormed, s).
Proof. apply release_IllFormed. Qed.

(** ** reset *)





(** ** Move construction *)

Lemma UniquePtr_move_convert that : UniquePtr_move that = UniquePtr_convert id that.
Proof. reflexivity. Qed.

Lemma UniquePtr_convert_Ok convert s a H :
  objs s !! a = Some H →
  ∃ b s', UniquePtr_convert convert a s = (Ok b, s') ∧
          b ≠ a ∧
          objs s !! b = None ∧
          objs s' = <[b := convert H]> (<[a := nullptr]> (objs s)) ∧
          heap s' = heap s ∧
          log s' = log s ++ [Store a nullptr; Store b (convert H)].
Proof.
  intros Ha. unfold UniquePtr_convert.
  rewrite (bind_Ok _ _ _ _ _ (exchange_Ok _ _ _ nullptr Ha)).
  set (s1 := push_log _ _).
  destruct (construct_Ok (convert H) s1) as (b & s' & Hrun & Hb & Hobjs & Hheap & Hlog).
  exists b, s'. split; [exact Hrun|].
  assert (Hne : b ≠ a).
  { intros ->. subst s1; simpl in Hb. by rewrite lookup_insert_eq in Hb. }
  split; [exact Hne|]. split.
  { subst s1; simpl in Hb. by rewrite lookup_insert_ne in Hb. }
  split; [exact Hobjs|]. split; [exact Hheap|].
  rewrite Hlog. subst s1; simpl. by rewrite <- app_assoc.
Qed.

Lemma moved_state s s' a b (v : N) :
  b ≠ a →
  objs s' = <[b := v]> (<[a := nullptr]> (objs s)) →
  get a s' = (Ok nullptr, s') ∧ get b s' = (Ok v, s') ∧
  (∀ l, l ≠ a → l ≠ b → objs s' !! l = objs s !! l).
Proof.
  intros Hne Hobjs. repeat split.
  - apply get_Ok. rewrite Hobjs, lookup_insert_ne by done. apply lookup_insert_eq.
  - apply get_Ok. rewrite Hobjs. apply lookup_insert_eq.
  - intros l Hla Hlb. by rewrite Hobjs, !lookup_insert_ne.
Qed.

Lemma calls_stores s s' (l : list event) :
  log s' = log s ++ l → omap policy_call l = [] → calls s' = calls s.
Proof.
  intros Hlog Hl. unfold calls. by rewrite Hlog, calls_app, Hl, app_nil_r.
Qed.

(** C2. From an instance [a] holding a non-null [H], the move constructor
    and the converting move constructor both complete and make a new
    instance [b]; afterwards [a.get()] is null and [b.get()] is [H] ([H]
    converted to [b]'s pointer type in the converting case, which is [H]
    itself whenever the conversion keeps the address); the transfer logs
    the two stores and no policy call. *)
Theorem move_construct_transfers_handle
    (convert : N → N) (s : state) (a : N) (H : N) :
  objs s !! a = Some H →
  H ≠ nullptr →
  (∃ b s', UniquePtr_move a s = (Ok b, s') ∧
           b ≠ a ∧ objs s !! b = None ∧
           get a s' = (Ok nullptr, s') ∧
           get b s' = (Ok H, s') ∧
           log s' = log s ++ [Store a nullptr; Store b H] ∧
           calls s' = calls s)
  ∧
  (∃ b s', UniquePtr_convert convert a s = (Ok b, s') ∧
           b ≠ a ∧ objs s !! b = None ∧
           get a s' = (Ok nullptr, s') ∧
           get b s' = (Ok (convert H), s') ∧
           (convert H = H → get b s' = (Ok H, s')) ∧
           log s' = log s ++ [Store a nullptr; Store b (convert H)] ∧
           calls s' = calls s).
Proof.
  intros Ha _. split.
  - rewrite UniquePtr_move_convert.
    destruct (UniquePtr_convert_Ok id s a H Ha)
      as (b & s' & Hrun & Hne & Hb & Hobjs & _ & Hlog).
    destruct (moved_state s s' a b _ Hne Hobjs) as (Hga & Hgb & _).
    exists b, s'. repeat split; try done.
    by apply (calls_stores _ _ _ Hlog).
  - destruct (UniquePtr_convert_Ok convert s a H Ha)
      as (b & s' & Hrun & Hne & Hb & Hobjs & _ & Hlog).
    destruct (moved_state s s' a b _ Hne Hobjs) as (Hga & Hgb & _).
    exists b, s'. repeat split; try done.
    + intros <-. exact Hgb.
    + by apply (calls_stores _ _ _ Hlog).
Qed.

Lemma move_construct_transfers_handle_witness :
  (∃ b s', UniquePtr_move 3%N st_example = (Ok b, s') ∧
           get 3%N s' = (Ok nullptr, s') ∧
           get b s' = (Ok 7%N, s') ∧
           calls s' = [])
  ∧
  (∃ b s', UniquePtr_convert to_second_base 3%N st_example = (Ok b, s') ∧
           get 3%N s' = (Ok nullptr, s') ∧
           get b s' = (Ok 15%N, s') ∧
           calls s' = []).
Proof.
  assert (Hnonnull : 7%N ≠ nullptr) by discriminate.
  destruct (move_construct_transfers_handle
              to_second_base st_example 3%N 7%N eq_refl Hnonnull)
    as [(b & s' & Hrun & _ & _ & Ha & Hb & _ & Hcalls)
        (b2 & s2 & Hrun2 & _ & _ & Ha2 & Hb2 & _ & _ & Hcalls2)].
  split.
  - exists b, s'. repeat split; assumption.
  - exists b2, s2. repeat split; assumption.
Defined.

(** ** Move assignment *)

Lemma move_assign_Ok D s this that P Q :
  objs s !! this = Some P →
  objs s !! that = Some Q →
  this ≠ that →
  ∃ s', move_assign D this that s = (Ok this, s') ∧
        objs s' = <[this := Q]> (<[that := nullptr]> (objs s)) ∧
        log s' = log s ++ released D P ++ [Store that nullptr; Store this Q].
Proof.
  intros Hthis Hthat Hne. unfold move_assign.
  rewrite decide_True by done.
  destruct (release_if_owned_Ok D P s) as (s1 & Hrel & Hobjs1 & Hlog1).
  assert (Hthat1 : objs s1 !! that = Some Q) by (by rewrite Hobjs1).
  set (s2 := push_log (Store that nullptr) (set_objs <[that := nullptr]> s1)).
  assert (Hthis2 : objs s2 !! this = Some P).
  { subst s2; simpl. by rewrite lookup_insert_ne, Hobjs1. }
  assert (Hbody :
    (p ← load this; release_if_owned D p;;
     q ← exchange (m_p that q_mutable) nullptr; assign this q) s
    = (Ok tt, push_log (Store this Q) (set_objs <[this := Q]> s2))).
  { rewrite (bind_Ok _ _ _ _ _ (load_Ok _ _ _ Hthis)).
    rewrite (bind_Ok _ _ _ _ _ Hrel).
    rewrite (bind_Ok _ _ _ _ _ (exchange_Ok _ _ _ nullptr Hthat1)).
    exact (assign_Ok _ _ _ Q Hthis2). }
  rewrite (bind_Ok _ _ _ _ _ Hbody).
  eexists. split; [reflexivity|]. simpl.
  rewrite Hobjs1, Hlog1. split; [done|].
  by rewrite <- !app_assoc.
Qed.

Lemma move_assign_self D s this : move_assign D this this s = (Ok this, s).
Proof. unfold move_assign. by rewrite decide_False by (by intros ?). Qed.

Lemma to_second_base_nullptr : to_second_base nullptr = nullptr.
Proof. reflexivity. Qed.


(** ** The specialisation for arrays *)

Lemma member_class_Deleter T D : (member_class T D).2 = D.
Proof. induction T as [id| |U IH]; simpl; [done|done|exact IH]. Qed.

Lemma Deleter_of_default T : Deleter_of T None = DefaultDeleter T.
Proof. unfold Deleter_of, template_args; simpl. apply member_class_Deleter. Qed.





(** ** makeUnique *)

Section AllocationProperties.
Context {Args : Type}.
Variable operator_new : gset N → exn + N.
Variable T_ctor : Args → option exn.

(** What an allocation function guarantees when it returns: a block that
    is not null and not among the blocks in use. *)
Hypothesis operator_new_fresh :
  ∀ h p, operator_new h = inr p → p ≠ nullptr ∧ p ∉ h.

Lemma new_expr_total args s :
  (∃ p, operator_new (heap s) = inr p ∧ T_ctor args = None ∧
        new_expr operator_new T_ctor args s
        = (Ok p, set_heap (union {[p]}) s))
  ∨ (∃ e, new_expr operator_new T_ctor args s = (Throw e, s)).
Proof using Type.
  unfold new_expr.
  destruct (operator_new (heap s)) as [e|p]; [right; by exists e|].
  destruct (T_ctor args) as [e|]; [right; by exists e|].
  left. by exists p.
Qed.

(** C7. [makeUnique(args...)] either completes or throws.  When the
    allocation function returns a block [p] and the constructor
    completes, it returns a new instance whose [get()] is [p], a non-null
    block that was not in use before and is the one block added to the
    heap, with no policy call.  When the new-expression throws [e]
    (from the allocation function or from the constructor), [makeUnique]
    throws the same [e] and the state is exactly the one before the call:
    no instance was made and no block stays allocated. *)
Theorem makeUnique_owns_or_propagates (args : Args) (s : state) :
  (∀ p, operator_new (heap s) = inr p → T_ctor args = None →
     ∃ b s', makeUnique operator_new T_ctor args s = (Ok b, s') ∧
             objs s !! b = None ∧
             get b s' = (Ok p, s') ∧
             p ≠ nullptr ∧ (p ∉ heap s) ∧
             heap s' = {[p]} ∪ heap s ∧
             (∀ l, l ≠ b → objs s' !! l = objs s !! l) ∧
             calls s' = calls s)
  ∧
  (∀ e s1, new_expr operator_new T_ctor args s = (Throw e, s1) →
     s1 = s ∧ makeUnique operator_new T_ctor args s = (Throw e, s))
  ∧
  (∀ e, operator_new (heap s) = inl e →
     makeUnique operator_new T_ctor args s = (Throw e, s))
  ∧
  (∀ p e, operator_new (heap s) = inr p → T_ctor args = Some e →
     makeUnique operator_new T_ctor args s = (Throw e, s))
  ∧
  ((∃ b s', makeUnique operator_new T_ctor args s = (Ok b, s'))
   ∨ (∃ e, makeUnique operator_new T_ctor args s = (Throw e, s))).
Proof using operator_new_fresh.
  assert (Hthrow : ∀ e,
    new_expr operator_new T_ctor args s = (Throw e, s) →
    makeUnique operator_new T_ctor args s = (Throw e, s)).
  { intros e He. unfold makeUnique, mbind, M_bind. by rewrite He. }
  split; [|split; [|split; [|split]]].
  - intros p Hnew Hctor.
    assert (Hexpr : new_expr operator_new T_ctor args s
                    = (Ok p, set_heap (union {[p]}) s)).
    { unfold new_expr. by rewrite Hnew, Hctor. }
    unfold makeUnique. rewrite (bind_Ok _ _ _ _ _ Hexpr).
    destruct (construct_Ok p (set_heap (union {[p]}) s))
      as (b & s' & Hrun & Hb & Hobjs & Hheap & Hlog).
    destruct (operator_new_fresh _ _ Hnew) as [Hnonnull Hnotin].
    exists b, s'. split; [exact Hrun|]. split; [exact Hb|].
    split; [apply get_Ok; rewrite Hobjs; apply lookup_insert_eq|].
    split; [exact Hnonnull|]. split; [exact Hnotin|].
    split; [exact Hheap|]. split.
    + intros l Hl. rewrite Hobjs. by apply lookup_insert_ne.
    + by apply (calls_stores _ _ _ Hlog).
  - intros e s1 He.
    assert (Hs1 : s1 = s).
    { destruct (new_expr_total args s) as [(p & _ & _ & Hp)|(e' & He')];
        congruence. }
    split; [exact Hs1|]. apply Hthrow. by rewrite He, Hs1.
  - intros e Hnew. apply Hthrow. unfold new_expr. by rewrite Hnew.
  - intros p e Hnew Hctor. apply Hthrow. unfold new_expr.
    by rewrite Hnew, Hctor.
  - destruct (new_expr_total args s) as [(p & Hnew & Hctor & Hp)|(e & He)].
    + left. unfold makeUnique. rewrite (bind_Ok _ _ _ _ _ Hp).
      destruct (construct_Ok p (set_heap (union {[p]}) s))
        as (b & s' & Hrun & _).
      by exists b, s'.
    + right. exists e. by apply Hthrow.
Qed.
End AllocationProperties.

Lemma bump_new_fresh limit h p :
  bump_new limit h = inr p → p ≠ nullptr ∧ p ∉ h.
Proof.
  unfold bump_new. case_decide; [|done].
  intros [= <-].
  pose proof (is_fresh ({[nullptr]} ∪ h)) as Hfresh.
  split; [intros Heq; rewrite Heq in Hfresh|]; set_solver.
Qed.

Lemma makeUnique_owns_or_propagates_witness :
  (∃ b s', makeUnique (bump_new 2) picky_ctor 42%N st_example = (Ok b, s') ∧
           get b s' = (Ok 8%N, s') ∧
           heap s' = {[8%N]} ∪ heap st_example)
  ∧ makeUnique (bump_new 1) picky_ctor 42%N st_example
    = (Throw bad_alloc, st_example)
  ∧ makeUnique (bump_new 2) picky_ctor 0%N st_example
    = (Throw (ctor_exception 1), st_example).
Proof.
  destruct (makeUnique_owns_or_propagates
              (bump_new 2) picky_ctor (bump_new_fresh 2) 42%N st_example)
    as (Hok & _ & _ & _ & _).
  assert (Hnew : bump_new 2 (heap st_example) = inr 8%N) by reflexivity.
  destruct (Hok 8%N Hnew eq_refl)
    as (b & s' & Hrun & _ & Hget & _ & _ & Hheap & _).
  destruct (makeUnique_owns_or_propagates
              (bump_new 1) picky_ctor (bump_new_fresh 1) 42%N st_example)
    as (_ & _ & Halloc & _).
  destruct (makeUnique_owns_or_propagates
              (bump_new 2) picky_ctor (bump_new_fresh 2) 0%N st_example)
    as (_ & _ & _ & Hctor & _).
  split; [by exists b, s'|].
  split; [exact (Halloc bad_alloc eq_refl)|].
  exact (Hctor 8%N (ctor_exception 1) Hnew eq_refl).
Defined.

(** * Further properties of the header *)

(** ** Exact final states *)

Lemma release_if_owned_run D p s :
  release_if_owned D p s = (Ok tt, after_release D p s).
Proof. unfold release_if_owned, after_release. by destruct (to_bool p). Qed.

Lemma objs_after_release D p s : objs (after_release D p s) = objs s.
Proof. unfold after_release. by destruct (to_bool p). Qed.

Lemma log_after_release D p s :
  log (after_release D p s) = log s ++ released D p.
Proof.
  unfold after_release, released. destruct (to_bool p); [done|].
  by rewrite app_nil_r.
Qed.

Lemma heap_after_release D p s :
  heap (after_release D p s)
  = if to_bool p then release_heap D p (heap s) else heap s.
Proof. unfold after_release. by destruct (to_bool p). Qed.

Lemma release_heap_frees D p h : frees D = true → release_heap D p h = h ∖ {[p]}.
Proof. destruct D as [[| |]|]; done. Qed.

Lemma release_heap_keeps D p h : frees D = false → release_heap D p h = h.
Proof. destruct D as [[| |]|]; done. Qed.

Lemma destructor_run D s a H :
  objs s !! a = Some H →
  destructor D a s = (Ok tt, set_objs (delete a) (after_release D H s)).
Proof.
  intros Ha. unfold destructor.
  rewrite (bind_Ok _ _ _ _ _ (load_Ok _ _ _ Ha)).
  by rewrite (bind_Ok _ _ _ _ _ (release_if_owned_run D H s)).
Qed.

Lemma reset_run D s a H p :
  objs s !! a = Some H →
  reset D a p s
  = (Ok tt, push_log (Store a p) (set_objs <[a := p]> (after_release D H s))).
Proof.
  intros Ha. unfold reset.
  rewrite (bind_Ok _ _ _ _ _ (load_Ok _ _ _ Ha)).
  rewrite (bind_Ok _ _ _ _ _ (release_if_owned_run D H s)).
  apply (assign_Ok _ _ H). by rewrite objs_after_release.
Qed.

Lemma move_assign_run D s this that P Q :
  objs s !! this = Some P →
  objs s !! that = Some Q →
  this ≠ that →
  move_assign D this that s
  = (Ok this,
     push_log (Store this Q) (set_objs <[this := Q]>
       (push_log (Store that nullptr) (set_objs <[that := nullptr]>
          (after_release D P s))))).
Proof.
  intros Hthis Hthat Hne. unfold move_assign.
  rewrite decide_True by done.
  set (s1 := after_release D P s).
  assert (Hthat1 : objs s1 !! that = Some Q).
  { subst s1. by rewrite objs_after_release. }
  set (s2 := push_log (Store that nullptr) (set_objs <[that := nullptr]> s1)).
  assert (Hthis2 : objs s2 !! this = Some P).
  { subst s2 s1; simpl. by rewrite lookup_insert_ne, objs_after_release. }
  assert (Hbody :
    (p ← load this; release_if_owned D p;;
     q ← exchange (m_p that q_mutable) nullptr; assign this q) s
    = (Ok tt, push_log (Store this Q) (set_objs <[this := Q]> s2))).
  { rewrite (bind_Ok _ _ _ _ _ (load_Ok _ _ _ Hthis)).
    rewrite (bind_Ok _ _ _ _ _ (release_if_owned_run D P s)).
    fold s1.
    rewrite (bind_Ok _ _ _ _ _ (exchange_Ok _ _ _ nullptr Hthat1)).
    exact (assign_Ok _ _ _ Q Hthis2). }
  by rewrite (bind_Ok _ _ _ _ _ Hbody).
Qed.

(** ** The invariants under the updates the member functions make *)

Lemma owns_insert m c v a p :
  owns (<[c := v]> m) a p ↔ (a = c ∧ p = v ∧ v ≠ nullptr) ∨ (a ≠ c ∧ owns m a p).
Proof.
  unfold owns. rewrite lookup_insert_Some. split.
  - intros [[[-> ->]|[Hne Hm]] Hp]; [left|right]; auto.
  - intros [(-> & -> & Hv)|(Hne & Hm & Hp)]; split; auto.
Qed.

Lemma owns_delete m c a p : owns (delete c m) a p ↔ a ≠ c ∧ owns m a p.
Proof.
  unfold owns. rewrite lookup_delete_Some. split.
  - intros [[Hne Hm] Hp]. auto.
  - intros (Hne & Hm & Hp). auto.
Qed.

(** Releasing what [a] owns and nulling [a]. *)
Lemma managed_by_drop m h a H :
  managed_by m h → m !! a = Some H →
  managed_by (<[a := nullptr]> m) (if to_bool H then h ∖ {[H]} else h).
Proof.
  intros (Hsole & Hlive & Hleak) Ha. split; [|split].
  - intros x y p. rewrite !owns_insert. intros [(_&_&?)|[_ Hx]] [(_&_&?)|[_ Hy]];
      try done. by apply (Hsole x y p).
  - intros x p. rewrite owns_insert. intros [(_&_&?)|[Hxa Hx]]; [done|].
    pose proof (Hlive x p Hx) as Hp.
    destruct (to_bool H) eqn:Hb; [|done].
    apply elem_of_difference. split; [done|]. rewrite elem_of_singleton.
    intros ->. apply Hxa, (Hsole x a H); [done|]. split; [done|]. by destruct Hx.
  - intros p Hp.
    assert (Hph : p ∈ h ∧ (to_bool H = true → p ≠ H)).
    { destruct (to_bool H); [|done]. apply elem_of_difference in Hp as [? Hne].
      rewrite elem_of_singleton in Hne. done. }
    destruct Hph as [Hin Hne]. destruct (Hleak p Hin) as (x & Hx).
    exists x. rewrite owns_insert. right. split; [|done].
    intros ->. destruct Hx as [Hx Hpn]. rewrite Ha in Hx. injection Hx as ->.
    apply Hne; [|done]. by apply to_bool_true.
Qed.

(** Handing the handle of [a] to [b], which owns nothing or is new. *)
Lemma managed_by_transfer m h a b H :
  managed_by m h → m !! a = Some H → b ≠ a →
  (m !! b = None ∨ m !! b = Some nullptr) →
  managed_by (<[b := H]> (<[a := nullptr]> m)) h.
Proof.
  intros (Hsole & Hlive & Hleak) Ha Hne Hb.
  assert (Hbfree : ∀ p, ¬ owns m b p).
  { intros p [Hp Hpn]. destruct Hb as [Hb|Hb]; rewrite Hb in Hp; congruence. }
  split; [|split].
  - intros x y p. rewrite !owns_insert.
    intros [(->&->&?)|[Hxb [(_&_&?)|[Hxa Hx]]]]
           [(->&Hy&?)|[Hyb [(_&_&?)|[Hya Hy]]]]; try done.
    + exfalso. apply Hya, (Hsole y a H); [done|]. by split.
    + exfalso. subst p. apply Hxa, (Hsole x a H); [done|]. by split.
    + by apply (Hsole x y p).
  - intros x p. rewrite !owns_insert.
    intros [(->&->&?)|[Hxb [(_&_&?)|[Hxa Hx]]]]; try done.
    + apply (Hlive a H). by split.
    + by apply (Hlive x p).
  - intros p Hp. destruct (Hleak p Hp) as (x & Hx).
    destruct (decide (x = a)) as [->|Hxa].
    + exists b. rewrite owns_insert. left.
      destruct Hx as [Hx Hpn]. rewrite Ha in Hx. injection Hx as ->. done.
    + exists x. rewrite !owns_insert. right. split.
      * intros ->. by apply (Hbfree p).
      * right. done.
Qed.

(** The end of the lifetime of an instance that owns nothing. *)
Lemma managed_by_forget m h a :
  managed_by m h → m !! a = Some nullptr → managed_by (delete a m) h.
Proof.
  intros (Hsole & Hlive & Hleak) Ha. split; [|split].
  - intros x y p. rewrite !owns_delete. intros [_ Hx] [_ Hy]. by apply (Hsole x y p).
  - intros x p. rewrite owns_delete. intros [_ Hx]. by apply (Hlive x p).
  - intros p Hp. destruct (Hleak p Hp) as (x & Hx). exists x.
    rewrite owns_delete. split; [|done]. intros ->.
    destruct Hx as [Hx Hpn]. rewrite Ha in Hx. congruence.
Qed.

(** A new instance that owns nothing. *)
Lemma managed_by_empty_instance m h b :
  managed_by m h → m !! b = None → managed_by (<[b := nullptr]> m) h.
Proof.
  intros (Hsole & Hlive & Hleak) Hb. split; [|split].
  - intros x y p. rewrite !owns_insert. intros [(_&_&?)|[_ Hx]] [(_&_&?)|[_ Hy]];
      try done. by apply (Hsole x y p).
  - intros x p. rewrite owns_insert. intros [(_&_&?)|[_ Hx]]; [done|].
    by apply (Hlive x p).
  - intros p Hp. destruct (Hleak p Hp) as (x & Hx). exists x.
    rewrite owns_insert. right. split; [|done]. intros ->.
    destruct Hx as [Hx _]. by rewrite Hb in Hx.
Qed.

(** A new instance that adopts a block just allocated. *)
Lemma managed_by_adopt m h b p :
  managed_by m h → m !! b = None → p ≠ nullptr → p ∉ h →
  managed_by (<[b := p]> m) ({[p]} ∪ h).
Proof.
  intros (Hsole & Hlive & Hleak) Hb Hp Hfresh. split; [|split].
  - intros x y q. rewrite !owns_insert.
    intros [(->&->&?)|[Hxb Hx]] [(->&Hy&?)|[Hyb Hy]]; try done.
    + exfalso. apply Hfresh. by apply (Hlive y p).
    + exfalso. subst q. apply Hfresh. by apply (Hlive x p).
    + by apply (Hsole x y q).
  - intros x q. rewrite owns_insert. intros [(->&->&?)|[Hxb Hx]].
    + set_solver.
    + apply elem_of_union_r. by apply (Hlive x q).
  - intros q Hq. apply elem_of_union in Hq as [Hq|Hq].
    + apply elem_of_singleton in Hq as ->. exists b. rewrite owns_insert. by left.
    + destruct (Hleak q Hq) as (x & Hx). exists x. rewrite owns_insert. right.
      split; [|done]. intros ->. destruct Hx as [Hx _]. by rewrite Hb in Hx.
Qed.

Lemma managed_by_initial : managed_by ∅ ∅.
Proof.
  split; [|split].
  - intros a b p [Ha _]. by rewrite lookup_empty in Ha.
  - intros a p [Ha _]. by rewrite lookup_empty in Ha.
  - intros p Hp. by apply not_elem_of_empty in Hp.
Qed.

Lemma managed_st_example : managed st_example.
Proof.
  unfold managed, st_example; simpl.
  replace ({[7%N]} : gset N) with ({[7%N]} ∪ (∅ : gset N)) by set_solver.
  apply managed_by_adopt; [|done|done|set_solver].
  rewrite <- insert_empty. apply (managed_by_empty_instance ∅ ∅ 5%N); [|done].
  apply managed_by_initial.
Qed.

(** ** The invariants along the member functions *)

Lemma destructor_managed D s a H :
  frees D = true → managed s → objs s !! a = Some H →
  managed (set_objs (delete a) (after_release D H s)).
Proof.
  intros HD Hm Ha. unfold managed; simpl.
  rewrite objs_after_release, heap_after_release, release_heap_frees by done.
  rewrite <- (delete_insert_eq (objs s) a nullptr).
  apply managed_by_forget; [|apply lookup_insert_eq].
  by apply managed_by_drop.
Qed.

Lemma move_construct_managed s a H :
  managed s → objs s !! a = Some H →
  ∃ b s', UniquePtr_move a s = (Ok b, s') ∧
          managed s' ∧
          heap s' = heap s ∧
          objs s' = <[b := H]> (<[a := nullptr]> (objs s)).
Proof.
  intros Hm Ha. rewrite UniquePtr_move_convert.
  destruct (UniquePtr_convert_Ok id s a H Ha)
    as (b & s' & Hrun & Hne & Hb & Hobjs & Hheap & _).
  exists b, s'. split; [exact Hrun|]. split; [|by split].
  unfold managed. rewrite Hobjs, Hheap.
  apply managed_by_transfer; auto.
Qed.

Lemma move_assign_managed D s this that P Q :
  frees D = true → managed s →
  objs s !! this = Some P → objs s !! that = Some Q → this ≠ that →
  ∃ s', move_assign D this that s = (Ok this, s') ∧
        managed s' ∧
        objs s' = <[this := Q]> (<[that := nullptr]> (objs s)) ∧
        heap s' = (if to_bool P then heap s ∖ {[P]} else heap s).
Proof.
  intros HD Hm Hthis Hthat Hne.
  eexists. split; [exact (move_assign_run D s this that P Q Hthis Hthat Hne)|].
  simpl. rewrite objs_after_release, heap_after_release, release_heap_frees by done.
  split; [|by split].
  unfold managed; simpl.
  rewrite objs_after_release, heap_after_release, release_heap_frees by done.
  rewrite <- (insert_insert_eq (<[that := nullptr]> (objs s)) this Q nullptr).
  rewrite (insert_insert_ne _ this that) by done.
  apply managed_by_transfer; [by apply managed_by_drop| |done|].
  - by rewrite lookup_insert_ne.
  - right. apply lookup_insert_eq.
Qed.

Lemma reset_default_managed D s a H :
  frees D = true → managed s → objs s !! a = Some H →
  ∃ s', reset_default D a s = (Ok tt, s') ∧
        managed s' ∧
        objs s' = <[a := nullptr]> (objs s) ∧
        heap s' = (if to_bool H then heap s ∖ {[H]} else heap s).
Proof.
  intros HD Hm Ha. eexists.
  split; [exact (reset_run D s a H nullptr Ha)|]. simpl.
  rewrite objs_after_release, heap_after_release, release_heap_frees by done.
  split; [|by split].
  unfold managed; simpl.
  rewrite objs_after_release, heap_after_release, release_heap_frees by done.
  by apply managed_by_drop.
Qed.

(** ** Single ownership is kept *)



(** ** The factories *)

Lemma default_construct_keeps_managed s :
  managed s →
  ∃ b s', UniquePtr_nullptr s = (Ok b, s') ∧ managed s'.
Proof.
  intros Hm.
  destruct (construct_Ok nullptr s) as (b & s' & Hrun & Hb & Hobjs & Hheap & _).
  exists b, s'. split; [exact Hrun|].
  unfold managed. rewrite Hobjs, Hheap. by apply managed_by_empty_instance.
Qed.

Section FactoryProperties.
Context {Args : Type}.
Variable operator_new : gset N → exn + N.
Variable T_ctor : Args → option exn.
Variable T_default_init : option exn.
Hypothesis operator_new_fresh :
  ∀ h p, operator_new h = inr p → p ≠ nullptr ∧ p ∉ h.

(** The two outcomes of a factory call, with the final state spelled out. *)
Lemma makeUnique_run (args : Args) s :
  (∃ p, operator_new (heap s) = inr p ∧ T_ctor args = None ∧
        makeUnique operator_new T_ctor args s
        = construct p (set_heap (union {[p]}) s))
  ∨ (∃ e, (operator_new (heap s) = inl e ∨
           (∃ p, operator_new (heap s) = inr p) ∧ T_ctor args = Some e) ∧
          makeUnique operator_new T_ctor args s = (Throw e, s)).
Proof using Type.
  unfold makeUnique, mbind, M_bind, new_expr.
  destruct (operator_new (heap s)) as [e|p] eqn:Hnew.
  - right. exists e. split; [by left|done].
  - destruct (T_ctor args) as [e|] eqn:Hctor.
    + right. exists e. split; [right; split; [by exists p|done]|done].
    + left. exists p. done.
Qed.

Lemma makeUnique_managed (args : Args) s r s' :
  managed s →
  makeUnique operator_new T_ctor args s = (r, s') →
  managed s' ∧
  ((∃ b p, r = Ok b ∧ owns (objs s') b p ∧ objs s !! b = None ∧
           (p ∉ heap s) ∧ heap s' = {[p]} ∪ heap s)
   ∨ (∃ e, r = Throw e ∧ s' = s)).
Proof using operator_new_fresh.
  intros Hm Hrun.
  destruct (makeUnique_run args s) as [(p & Hnew & _ & Hmk)|(e & _ & Hmk)].
  - destruct (operator_new_fresh _ _ Hnew) as [Hp Hfresh].
    destruct (construct_Ok p (set_heap (union {[p]}) s))
      as (b & s1 & Hc & Hb & Hobjs & Hheap & _).
    rewrite Hmk, Hc in Hrun. injection Hrun as <- <-.
    simpl in Hb, Hobjs, Hheap. split.
    + unfold managed. rewrite Hobjs, Hheap. by apply managed_by_adopt.
    + left. exists b, p. split; [done|]. split; [|done].
      rewrite Hobjs. split; [apply lookup_insert_eq|done].
  - rewrite Hmk in Hrun. injection Hrun as <- <-.
    split; [exact Hm|]. right. by exists e.
Qed.

(** X5. From a managed state [makeUnique] always leaves a managed state:
    when it returns, the new instance is the one owner of a block that was
    not allocated before; when it throws, the state is the one before the
    call, so nothing is owned twice and nothing is left without an owner. *)
Theorem makeUnique_keeps_managed (args : Args) (s : state) :
  managed s →
  ∃ r s', makeUnique operator_new T_ctor args s = (r, s') ∧
          managed s' ∧
          ((∃ b p, r = Ok b ∧ owns (objs s') b p ∧ objs s !! b = None ∧
                   (p ∉ heap s) ∧ heap s' = {[p]} ∪ heap s)
           ∨ (∃ e, r = Throw e ∧ s' = s)).
Proof using operator_new_fresh.
  intros Hm.
  destruct (makeUnique operator_new T_ctor args s) as [r s'] eqn:Hrun.
  exists r, s'. split; [done|]. by apply (makeUnique_managed args s).
Qed.

End FactoryProperties.

Section OverwriteProperties.
Variable operator_new : gset N → exn + N.
Variable T_default_init : option exn.
Hypothesis operator_new_fresh :
  ∀ h p, operator_new h = inr p → p ≠ nullptr ∧ p ∉ h.

(** X6. [makeUniqueForOverwrite] behaves like [makeUnique] without
    arguments.  When the allocation function returns [p] and
    default-initialisation completes, it returns a new instance whose
    [get()] is [p], a non-null block not in use before, with no policy call;
    when either step throws [e] it throws [e] and leaves the state as it
    was.  From a managed state the state it leaves is managed. *)
Theorem makeUniqueForOverwrite_owns_or_propagates (s : state) :
  (∀ p, operator_new (heap s) = inr p → T_default_init = None →
     ∃ b s', makeUniqueForOverwrite operator_new T_default_init s = (Ok b, s') ∧
             objs s !! b = None ∧
             get b s' = (Ok p, s') ∧
             p ≠ nullptr ∧ (p ∉ heap s) ∧
             heap s' = {[p]} ∪ heap s ∧
             calls s' = calls s)
  ∧
  (∀ e, operator_new (heap s) = inl e →
     makeUniqueForOverwrite operator_new T_default_init s = (Throw e, s))
  ∧
  (∀ p e, operator_new (heap s) = inr p → T_default_init = Some e →
     makeUniqueForOverwrite operator_new T_default_init s = (Throw e, s))
  ∧
  (managed s →
   managed (makeUniqueForOverwrite operator_new T_default_init s).2).
Proof using operator_new_fresh.
  unfold makeUniqueForOverwrite. split; [|split; [|split]].
  - intros p Hnew Hinit.
    assert (Hexpr : new_expr operator_new (λ _ : unit, T_default_init) tt s
                    = (Ok p, set_heap (union {[p]}) s)).
    { unfold new_expr. by rewrite Hnew, Hinit. }
    rewrite (bind_Ok _ _ _ _ _ Hexpr).
    destruct (construct_Ok p (set_heap (union {[p]}) s))
      as (b & s' & Hrun & Hb & Hobjs & Hheap & Hlog).
    destruct (operator_new_fresh _ _ Hnew) as [Hnonnull Hnotin].
    exists b, s'. split; [exact Hrun|]. split; [exact Hb|].
    split; [apply get_Ok; rewrite Hobjs; apply lookup_insert_eq|].
    split; [exact Hnonnull|]. split; [exact Hnotin|].
    split; [exact Hheap|]. by apply (calls_stores _ _ _ Hlog).
  - intros e Hnew. unfold mbind, M_bind, new_expr. by rewrite Hnew.
  - intros p e Hnew Hinit. unfold mbind, M_bind, new_expr. by rewrite Hnew, Hinit.
  - intros Hm.
    destruct (makeUnique operator_new (λ _ : unit, T_default_init) tt s)
      as [r s'] eqn:Hrun.
    change ((p ← new_expr operator_new (λ _ : unit, T_default_init) tt;
             UniquePtr_ptr p) s)
      with (makeUnique operator_new (λ _ : unit, T_default_init) tt s).
    rewrite Hrun; simpl.
    exact (proj1 (makeUnique_managed operator_new _ operator_new_fresh
                    tt s r s' Hm Hrun)).
Qed.
End OverwriteProperties.

Lemma makeUnique_keeps_managed_witness :
  ∃ r s', makeUnique (bump_new 2) picky_ctor 42%N st_example = (r, s') ∧
          managed s'.
Proof.
  destruct (makeUnique_keeps_managed (bump_new 2) picky_ctor (bump_new_fresh 2)
              42%N st_example managed_st_example)
    as (r & s' & Hrun & Hm & _).
  by exists r, s'.
Defined.

Lemma makeUniqueForOverwrite_owns_or_propagates_witness :
  (∃ b s', makeUniqueForOverwrite (bump_new 2) None st_example = (Ok b, s') ∧
           get b s' = (Ok 8%N, s') ∧
           heap s' = {[8%N]} ∪ heap st_example)
  ∧ makeUniqueForOverwrite (bump_new 1) None st_example
    = (Throw bad_alloc, st_example)
  ∧ managed (makeUniqueForOverwrite (bump_new 2) None st_example).2.
Proof.
  destruct (makeUniqueForOverwrite_owns_or_propagates
              (bump_new 2) None (bump_new_fresh 2) st_example)
    as (Hok & _ & _ & Hm).
  assert (Hnew : bump_new 2 (heap st_example) = inr 8%N) by reflexivity.
  destruct (Hok 8%N Hnew eq_refl) as (b & s' & Hrun & _ & Hget & _ & _ & Hheap & _).
  destruct (makeUniqueForOverwrite_owns_or_propagates
              (bump_new 1) None (bump_new_fresh 1) st_example)
    as (_ & Halloc & _).
  split; [by exists b, s'|].
  split; [exact (Halloc bad_alloc eq_refl)|].
  exact (Hm managed_st_example).
Defined.

(** ** Client code *)

Lemma load_None s l : objs s !! l = None → load l s = (NoObject, s).
Proof. intros Hl. unfold load. by rewrite Hl. Qed.

Lemma bind_NoObject {A B} (m : M A) (f : A → M B) s s' :
  m s = (NoObject, s') → (m ≫= f) s = (NoObject, s').
Proof. intros Hm. unfold mbind, M_bind. by rewrite Hm. Qed.

Lemma exchange_NoObject s l v :
  objs s !! l = None → exchange (m_p l q_mutable) v s = (NoObject, s).
Proof.
  intros Hl. unfold exchange; simpl.
  by rewrite (bind_NoObject _ _ _ _ (load_None _ _ Hl)).
Qed.

Lemma then_unit_run {A} (m : M A) s r s' :
  (m;; mret tt) s = (r, s') →
  ∃ r0, m s = (r0, s') ∧ (completes r → completes r0).
Proof.
  unfold mbind, M_bind. destruct (m s) as [[a|e| |] s0]; intros [= <- <-];
    eexists; (split; [reflexivity|done]).
Qed.

Section ClientProperties.
Context {Args : Type}.
Variable operator_new : gset N → exn + N.
Variable T_ctor : Args → option exn.
Variable T_default_init : option exn.
Variable Deleter : deleter.
Hypothesis operator_new_fresh :
  ∀ h p, operator_new h = inr p → p ≠ nullptr ∧ p ∉ h.
Hypothesis Deleter_frees : frees Deleter = true.

Lemma exec_managed (c : stmt) s r s' :
  managed s →
  exec operator_new T_ctor T_default_init Deleter c s = (r, s') →
  completes r →
  managed s'.
Proof using operator_new_fresh Deleter_frees.
  intros Hm Hrun Hr. destruct c as [args| | |that|this that|this|this]; simpl in Hrun.
  - apply then_unit_run in Hrun as (r0 & Hrun & _).
    exact (proj1 (makeUnique_managed operator_new T_ctor operator_new_fresh
                    args s r0 s' Hm Hrun)).
  - apply then_unit_run in Hrun as (r0 & Hrun & _).
    exact (proj1 (makeUnique_managed operator_new _ operator_new_fresh
                    tt s r0 s' Hm Hrun)).
  - apply then_unit_run in Hrun as (r0 & Hrun & _).
    destruct (default_construct_keeps_managed s Hm) as (b & s1 & Hc & Hm1).
    rewrite Hc in Hrun. by injection Hrun as _ <-.
  - apply then_unit_run in Hrun as (r0 & Hrun & Hr0). specialize (Hr0 Hr).
    destruct (objs s !! that) as [H|] eqn:Hthat.
    + destruct (move_construct_managed s that H Hm Hthat)
        as (b & s1 & Hc & Hm1 & _).
      rewrite Hc in Hrun. by injection Hrun as _ <-.
    + unfold UniquePtr_move in Hrun.
      rewrite (bind_NoObject _ _ _ _ (exchange_NoObject _ _ nullptr Hthat)) in Hrun.
      injection Hrun as <- _. done.
  - apply then_unit_run in Hrun as (r0 & Hrun & Hr0). specialize (Hr0 Hr).
    destruct (decide (this = that)) as [->|Hne].
    { rewrite move_assign_self in Hrun. by injection Hrun as _ <-. }
    destruct (objs s !! this) as [P|] eqn:Hthis.
    + destruct (objs s !! that) as [Q|] eqn:Hthat.
      * destruct (move_assign_managed Deleter s this that P Q
                    Deleter_frees Hm Hthis Hthat Hne) as (s1 & Hc & Hm1 & _).
        rewrite Hc in Hrun. by injection Hrun as _ <-.
      * unfold move_assign in Hrun. rewrite decide_True in Hrun by done.
        assert (Hbody :
          (p ← load this; release_if_owned Deleter p;;
           q ← exchange (m_p that q_mutable) nullptr; assign this q) s
          = (NoObject, after_release Deleter P s)).
        { rewrite (bind_Ok _ _ _ _ _ (load_Ok _ _ _ Hthis)).
          rewrite (bind_Ok _ _ _ _ _ (release_if_owned_run Deleter P s)).
          apply bind_NoObject, exchange_NoObject.
          by rewrite objs_after_release. }
        rewrite (bind_NoObject _ _ _ _ Hbody) in Hrun.
        injection Hrun as <- _. done.
    + unfold move_assign in Hrun. rewrite decide_True in Hrun by done.
      assert (Hbody :
        (p ← load this; release_if_owned Deleter p;;
         q ← exchange (m_p that q_mutable) nullptr; assign this q) s
        = (NoObject, s)).
      { apply bind_NoObject. by apply load_None. }
      rewrite (bind_NoObject _ _ _ _ Hbody) in Hrun.
      injection Hrun as <- _. done.
  - destruct (objs s !! this) as [H|] eqn:Hthis.
    + destruct (reset_default_managed Deleter s this H
                  Deleter_frees Hm Hthis) as (s1 & Hc & Hm1 & _).
      rewrite Hc in Hrun. by injection Hrun as _ <-.
    + unfold reset_default, reset in Hrun.
      rewrite (bind_NoObject _ _ _ _ (load_None _ _ Hthis)) in Hrun.
      injection Hrun as <- _. done.
  - destruct (objs s !! this) as [H|] eqn:Hthis.
    + rewrite (destructor_run Deleter s this H Hthis) in Hrun.
      injection Hrun as _ <-.
      by apply destructor_managed.
    + unfold destructor in Hrun.
      rewrite (bind_NoObject _ _ _ _ (load_None _ _ Hthis)) in Hrun.
      injection Hrun as <- _. done.
Qed.

Lemma run_managed (prog : list stmt) (s : state) r s' :
  managed s →
  run operator_new T_ctor T_default_init Deleter prog s = (r, s') →
  completes r →
  managed s' ∧ (objs s' = ∅ → heap s' = ∅).
Proof using operator_new_fresh Deleter_frees.
  intros Hm Hrun Hr.
  assert (Hm' : managed s').
  { revert s Hm Hrun. induction prog as [|c rest IH]; intros s Hm Hrun.
    - simpl in Hrun. by injection Hrun as _ <-.
    - simpl in Hrun. unfold mbind, M_bind in Hrun.
      destruct (exec operator_new T_ctor T_default_init Deleter c s)
        as [r0 s0] eqn:Hc.
      destruct r0 as [[]|e| |].
      + apply (IH s0); [|exact Hrun]. by apply (exec_managed c s (Ok tt) s0).
      + injection Hrun as <- <-. by apply (exec_managed c s (Throw e) s0).
      + injection Hrun as <- _. done.
      + injection Hrun as <- _. done. }
  split; [exact Hm'|]. intros Hempty.
  destruct Hm' as (_ & _ & Hleak). apply elem_of_equiv_empty_L. intros p Hp.
  destruct (Hleak p Hp) as (a & Ha & _). by rewrite Hempty, lookup_empty in Ha.
Qed.
End ClientProperties.

(** ** Whole lifetimes *)

Lemma calls_log s s' (l : list event) :
  log s' = log s ++ l → calls s' = calls s ++ omap policy_call l.
Proof. intros Hlog. unfold calls. by rewrite Hlog, calls_app. Qed.

Section LifetimeProperties.
Context {Args : Type}.
Variable operator_new : gset N → exn + N.
Variable T_ctor : Args → option exn.
Hypothesis operator_new_fresh :
  ∀ h p, operator_new h = inr p → p ≠ nullptr ∧ p ∉ h.

(** X8. What [makeUnique<T>] returns for an object type [T] is a
    [UniquePtr<T>] with the default policy.  If the call returns and the
    instance is then destroyed, the policy [DefaultDeleter<T>] has been
    called exactly once, on the block the call allocated, and the live
    instances and the allocated blocks are exactly those before the call. *)
Theorem makeUnique_then_destroy_restores
    (id : N) (args : Args) (s : state) (b : N) (s1 : state) :
  makeUnique operator_new T_ctor args s = (Ok b, s1) →
  ∃ p s2, get b s1 = (Ok p, s1) ∧
          p ≠ nullptr ∧
          destroy (TObject id) None b s1 = (Ok tt, s2) ∧
          objs s2 = objs s ∧
          heap s2 = heap s ∧
          calls s2 = calls s ++ [(DefaultDeleter (TObject id), p)].
Proof using operator_new_fresh.
  intros Hrun.
  destruct (makeUnique_run operator_new T_ctor args s)
    as [(p & Hnew & _ & Hmk)|(e & _ & Hmk)]; [|congruence].
  destruct (operator_new_fresh _ _ Hnew) as [Hp Hfresh].
  destruct (construct_Ok p (set_heap (union {[p]}) s))
    as (b' & s1' & Hc & Hb & Hobjs & Hheap & Hlog).
  rewrite Hmk, Hc in Hrun. injection Hrun as -> ->.
  simpl in Hb, Hobjs, Hheap, Hlog.
  assert (Hb1 : objs s1 !! b = Some p).
  { rewrite Hobjs. apply lookup_insert_eq. }
  exists p. eexists. split; [by apply get_Ok|]. split; [exact Hp|].
  unfold destroy. rewrite Deleter_of_default.
  split; [exact (destructor_run _ s1 b p Hb1)|]. simpl.
  rewrite objs_after_release, heap_after_release.
  rewrite to_bool_true by done. simpl.
  split; [|split].
  - rewrite Hobjs. by apply delete_insert_id.
  - rewrite Hheap. apply set_eq. intros q.
    rewrite elem_of_difference, elem_of_union, !elem_of_singleton.
    split; [intros [[?|?] ?]; done|]. intros Hq. split; [by right|].
    by intros ->.
  - unfold calls; simpl. rewrite log_after_release, released_nonnull by done.
    rewrite Hlog, <- app_assoc. by rewrite calls_app.
Qed.
End LifetimeProperties.

Lemma makeUnique_then_destroy_restores_witness :
  ∃ b s1 s2,
    makeUnique (bump_new 2) picky_ctor 42%N st_example = (Ok b, s1) ∧
    destroy (TObject 1) None b s1 = (Ok tt, s2) ∧
    objs s2 = objs st_example ∧
    heap s2 = heap st_example ∧
    calls s2 = [(DefaultDeleter (TObject 1), 8%N)].
Proof.
  set (r := makeUnique (bump_new 2) picky_ctor 42%N st_example).
  assert (Hrun : makeUnique (bump_new 2) picky_ctor 42%N st_example
                 = (Ok 6%N, r.2)) by (vm_compute; reflexivity).
  destruct (makeUnique_then_destroy_restores (bump_new 2) picky_ctor
              (bump_new_fresh 2) 1%N 42%N st_example 6%N r.2 Hrun)
    as (p & s2 & Hget & _ & Hd & Hobjs & Hheap & Hcalls).
  assert (Hp : p = 8%N).
  { assert (Hget' : get 6%N r.2 = (Ok 8%N, r.2)) by (vm_compute; reflexivity).
    congruence. }
  subst p. exists 6%N, r.2, s2. repeat split; assumption.
Defined.



(** ** Where single ownership is the caller's business *)





(** ** exchange, twice *)

(** X14. Exchanging a value into a mutable location and then exchanging the
    old value back returns the two values in turn and restores the store:
    every cell, the heap and the policy calls are as before. *)
Theorem exchange_back_restores (s : state) (dst : N) (old val : N) :
  objs s !! dst = Some old →
  ∃ s1 s2,
    exchange (mkLvalue dst q_mutable) val s = (Ok old, s1) ∧
    exchange (mkLvalue dst q_mutable) old s1 = (Ok val, s2) ∧
    objs s2 = objs s ∧
    heap s2 = heap s ∧
    calls s2 = calls s.
Proof.
  intros Hdst. eexists. eexists.
  split; [exact (exchange_Ok s dst old val Hdst)|].
  split.
  { apply exchange_Ok. simpl. apply lookup_insert_eq. }
  simpl. split; [|split].
  - rewrite insert_insert_eq. by apply insert_id.
  - done.
  - unfold calls; simpl. rewrite <- app_assoc, calls_app. apply app_nil_r.
Qed.

Lemma exchange_back_restores_witness :
  ∃ s1 s2,
    exchange (mkLvalue 3%N q_mutable) 9%N st_example = (Ok 7%N, s1) ∧
    exchange (mkLvalue 3%N q_mutable) 7%N s1 = (Ok 9%N, s2) ∧
    objs s2 = objs st_example ∧
    heap s2 = heap st_example ∧
    calls s2 = calls st_example.
Proof.
  apply (exchange_back_restores st_example 3%N 7%N 9%N). reflexivity.
Defined.

(** * Element types that hold owning pointers *)

(** ** Nested releases terminate *)

Lemma size_objs_live (m : gmap N N) l q :
  m !! l = Some q → size m = S (size (delete l m)).
Proof.
  intros Hl. rewrite <- (insert_delete_id m l q Hl) at 1.
  apply map_size_insert_None, lookup_delete_eq.
Qed.

Lemma destroy_members_size rec base ms s :
  match rec with
  | Some r => ∀ D q t, size (objs (r D q t).2) ≤ size (objs t)
  | None => True
  end →
  (∀ t, size (objs (base t).2) ≤ size (objs t)) →
  size (objs (foldr (destroy_member rec) base ms s).2) ≤ size (objs s).
Proof.
  intros Hrec Hbase. revert s.
  induction ms as [|m ms IH]; intros s; simpl; [apply Hbase|].
  unfold destroy_member at 1.
  destruct (objs s !! m.1) as [q|] eqn:Hm; [|done].
  pose proof (size_objs_live _ _ _ Hm) as Hsize.
  set (s' := set_objs (delete m.1) s).
  assert (Hs' : size (objs s') ≤ size (objs s)) by (subst s'; simpl; lia).
  destruct (to_bool q).
  - destruct rec as [r|]; [|done].
    unfold mbind, M_bind. specialize (Hrec m.2 q s').
    destruct (r m.2 q s') as [[[]|e| |] s1]; simpl in *; try lia.
    specialize (IH s1). lia.
  - specialize (IH s'). lia.
Qed.

Lemma release_object_size L fuel D p s :
  size (objs (release_object L fuel D p s).2) ≤ size (objs s).
Proof.
  revert D p s. induction fuel as [|fuel IH]; intros D p s; simpl;
    (destruct (frees D); [|done]);
    (etrans; [apply destroy_members_size; [|done]|done]); [done|].
  intros D' q t. apply IH.
Qed.

Lemma destroy_members_agree rec1 rec2 base ms n :
  (∀ t D q, size (objs t) < n →
     ∃ r1 r2, rec1 = Some r1 ∧ rec2 = Some r2 ∧ r1 D q t = r2 D q t ∧
              size (objs (r1 D q t).2) ≤ size (objs t)) →
  ∀ s, size (objs s) ≤ n →
       foldr (destroy_member rec1) base ms s
       = foldr (destroy_member rec2) base ms s.
Proof.
  intros Hrec. induction ms as [|m ms IH]; intros s Hs; simpl; [done|].
  unfold destroy_member at 1 3.
  destruct (objs s !! m.1) as [q|] eqn:Hm; [|done].
  pose proof (size_objs_live _ _ _ Hm) as Hsize.
  set (s' := set_objs (delete m.1) s).
  assert (Hs' : size (objs s') < n) by (subst s'; simpl; lia).
  destruct (to_bool q).
  - destruct (Hrec s' m.2 q Hs') as (r1 & r2 & -> & -> & Heq & Hle).
    unfold mbind, M_bind. rewrite <- Heq.
    destruct (r1 m.2 q s') as [[[]|e| |] s1]; simpl in *; try done.
    apply IH. lia.
  - apply IH. lia.
Qed.

(** The result of a release does not depend on the fuel once there is as
    much of it as there are live instances. *)
Lemma release_object_fuel L f1 f2 D p s :
  size (objs s) ≤ f1 → size (objs s) ≤ f2 →
  release_object L f1 D p s = release_object L f2 D p s.
Proof.
  revert f2 D p s. induction f1 as [|f1 IH]; intros f2 D p s H1 H2.
  - destruct f2 as [|f2]; [done|]. simpl. destruct (frees D); [|done].
    apply (destroy_members_agree _ _ _ _ 0); [intros; lia|simpl; lia].
  - destruct f2 as [|f2]; simpl; (destruct (frees D); [|done]).
    + apply (destroy_members_agree _ _ _ _ 0); [intros; lia|simpl; lia].
    + apply (destroy_members_agree _ _ _ _ (size (objs s))); [|done].
      intros t D' q Ht. eexists _, _. split; [done|]. split; [done|].
      split; [apply IH; lia|apply release_object_size].
Qed.

(** ** Objects without owning members *)

Lemma bind_congr {A B} (m1 m2 : M A) (f : A → M B) s :
  m1 s = m2 s → (m1 ≫= f) s = (m2 ≫= f) s.
Proof. intros Hm. unfold mbind, M_bind. by rewrite Hm. Qed.

Lemma to_bool_nonnull p : to_bool p = true → p ≠ nullptr.
Proof. intros Hp ->. by rewrite to_bool_nullptr in Hp. Qed.

Lemma invoke_in_leaf L D p s : leaf L p → invoke_in L D p s = invoke D p s.
Proof.
  intros [Hmembers Hcomplete]. unfold invoke_in, invoke.
  destruct (size (objs s)); simpl; rewrite Hmembers, Hcomplete; simpl;
    destruct D as [[| |]|]; done.
Qed.

Lemma release_if_owned_in_leaf L D p s :
  (p ≠ nullptr → leaf L p) →
  release_if_owned_in L D p s = release_if_owned D p s.
Proof.
  intros Hleaf. unfold release_if_owned_in, release_if_owned.
  destruct (to_bool p) eqn:Hp; [|done].
  apply invoke_in_leaf, Hleaf. by apply to_bool_nonnull.
Qed.

Lemma destructor_in_leaf L D s a H :
  objs s !! a = Some H → (H ≠ nullptr → leaf L H) →
  destructor_in L D a s = destructor D a s.
Proof.
  intros Ha Hleaf. unfold destructor_in, destructor.
  rewrite !(bind_Ok _ _ _ _ _ (load_Ok _ _ _ Ha)).
  apply bind_congr, release_if_owned_in_leaf, Hleaf.
Qed.

Lemma reset_in_leaf L D s a H p :
  objs s !! a = Some H → (H ≠ nullptr → leaf L H) →
  reset_in L D a p s = reset D a p s.
Proof.
  intros Ha Hleaf. unfold reset_in, reset.
  rewrite !(bind_Ok _ _ _ _ _ (load_Ok _ _ _ Ha)).
  apply bind_congr, release_if_owned_in_leaf, Hleaf.
Qed.

Lemma move_assign_in_leaf L D s this that P :
  objs s !! this = Some P → (P ≠ nullptr → leaf L P) →
  move_assign_in L D this that s = move_assign D this that s.
Proof.
  intros Hthis Hleaf. unfold move_assign_in, move_assign.
  destruct (decide (this ≠ that)); [|done].
  apply bind_congr.
  rewrite !(bind_Ok _ _ _ _ _ (load_Ok _ _ _ Hthis)).
  apply bind_congr, release_if_owned_in_leaf, Hleaf.
Qed.

Lemma move_assign_in_self L D s this :
  move_assign_in L D this this s = (Ok this, s).
Proof. unfold move_assign_in. by rewrite decide_False by (by intros ?). Qed.

Lemma release_if_owned_in_flat L D p s :
  (∀ q, leaf L q) → release_if_owned_in L D p s = release_if_owned D p s.
Proof. intros Hflat. apply release_if_owned_in_leaf. intros _. apply Hflat. Qed.

Lemma destructor_in_flat L D s a :
  (∀ q, leaf L q) → destructor_in L D a s = destructor D a s.
Proof.
  intros Hflat. destruct (objs s !! a) as [H|] eqn:Ha.
  - apply (destructor_in_leaf L D s a H Ha). intros _. apply Hflat.
  - unfold destructor_in, destructor.
    by rewrite !(bind_NoObject _ _ _ _ (load_None _ _ Ha)).
Qed.

Lemma reset_in_flat L D s a p :
  (∀ q, leaf L q) → reset_in L D a p s = reset D a p s.
Proof.
  intros Hflat. destruct (objs s !! a) as [H|] eqn:Ha.
  - apply (reset_in_leaf L D s a H p Ha). intros _. apply Hflat.
  - unfold reset_in, reset.
    by rewrite !(bind_NoObject _ _ _ _ (load_None _ _ Ha)).
Qed.

Lemma move_assign_in_flat L D s this that :
  (∀ q, leaf L q) → move_assign_in L D this that s = move_assign D this that s.
Proof.
  intros Hflat. destruct (objs s !! this) as [P|] eqn:Hthis.
  - apply (move_assign_in_leaf L D s this that P Hthis). intros _. apply Hflat.
  - unfold move_assign_in, move_assign.
    destruct (decide (this ≠ that)); [|done].
    apply bind_congr.
    by rewrite !(bind_NoObject _ _ _ _ (load_None _ _ Hthis)).
Qed.

(** ** Move assignment and the object the target owns *)

(** C4 (what the code does).  [head = std::move(head->next)] on a list of
    two nodes.  The two instances are distinct, so line 84 runs first:
    [Deleter{}(m_p)] deletes the node that [head] owns, and the destructor
    of that node ends the lifetime of its member [next], the source of the
    assignment, releasing the second node through it.  Line 85 then calls
    [exchange] on the [m_p] of an instance whose lifetime has ended.  The
    assignment does not complete: [head] still holds the handle of the
    first node, both nodes have been released and nothing is allocated. *)
Theorem move_assign_destroys_its_source :
  ∃ s1,
    release_if_owned_in Node_layout (DefaultDeleter Node) 16%N st_list
    = (Ok tt, s1) ∧
    objs s1 !! 24%N = None ∧
    exchange (m_p 24%N q_mutable) nullptr s1 = (NoObject, s1) ∧
    move_assign_in Node_layout (DefaultDeleter Node) 3%N 24%N st_list
    = (NoObject, s1) ∧
    objs s1 !! 3%N = Some 16%N ∧
    heap s1 = ∅ ∧
    calls s1 = [(DefaultDeleter Node, 16%N); (DefaultDeleter Node, 32%N)].
Proof.
  eexists. split; [vm_compute; reflexivity|].
  repeat split; vm_compute; reflexivity.
Qed.

(** C10 (what the code does).  The last step of
    [while (head) head = std::move(head->next)]: the source [head->next] is
    empty and lives in the node that [head] owns.  Line 84 deletes that
    node, which ends the lifetime of the source; line 85 then calls
    [exchange] on it.  The assignment does not complete, and [head] is left
    holding the handle of the node that was released. *)
Theorem move_assign_from_empty_member_destroys_its_source :
  get 40%N st_last_node = (Ok nullptr, st_last_node) ∧
  ∃ s1,
    release_if_owned_in Node_layout (DefaultDeleter Node) 32%N st_last_node
    = (Ok tt, s1) ∧
    objs s1 !! 40%N = None ∧
    exchange (m_p 40%N q_mutable) nullptr s1 = (NoObject, s1) ∧
    move_assign_in Node_layout (DefaultDeleter Node) 3%N 40%N st_last_node
    = (NoObject, s1) ∧
    get 3%N s1 = (Ok 32%N, s1) ∧
    heap s1 = ∅ ∧
    calls s1 = [(DefaultDeleter Node, 32%N)].
Proof.
  split; [vm_compute; reflexivity|].
  eexists. split; [vm_compute; reflexivity|].
  repeat split; vm_compute; reflexivity.
Qed.

(** X15. For distinct live instances [this] (holding [P]) and [that]
    (holding [Q]), when the object [P] points to has no [UniquePtr] member
    (or [P] is null), move assignment completes and returns [this]; it
    first calls the release policy on [P], exactly when [P] is not null,
    then nulls [that] and stores [Q] into [this]; no other instance
    changes.  When both operands are the same instance (either of the two,
    whatever the element type) the call returns it and the state is left
    exactly as it was. *)
Theorem move_assign_in_releases_then_transfers
    (L : layout) (D : deleter) (s : state) (this that : N) (P Q : N) :
  objs s !! this = Some P →
  objs s !! that = Some Q →
  this ≠ that →
  (P ≠ nullptr → leaf L P) →
  (∃ s', move_assign_in L D this that s = (Ok this, s') ∧
         (P ≠ nullptr →
            log s' = log s ++ [Invoke D P; Store that nullptr; Store this Q] ∧
            calls s' = calls s ++ [(D, P)]) ∧
         (P = nullptr →
            log s' = log s ++ [Store that nullptr; Store this Q] ∧
            calls s' = calls s) ∧
         get this s' = (Ok Q, s') ∧
         get that s' = (Ok nullptr, s') ∧
         (∀ l, l ≠ this → l ≠ that → objs s' !! l = objs s !! l))
  ∧
  move_assign_in L D this this s = (Ok this, s)
  ∧
  move_assign_in L D that that s = (Ok that, s).
Proof.
  intros Hthis Hthat Hne Hleaf.
  split; [|split; apply move_assign_in_self].
  rewrite (move_assign_in_leaf L D s this that P Hthis Hleaf).
  destruct (move_assign_Ok D s this that P Q Hthis Hthat Hne)
    as (s' & Hrun & Hobjs & Hlog).
  exists s'. split; [exact Hrun|]. repeat split.
  - rewrite Hlog. by rewrite released_nonnull.
  - unfold calls. rewrite Hlog, calls_app, released_nonnull; done.
  - subst P. by rewrite Hlog, released_nullptr.
  - subst P. apply (calls_stores _ _ _ Hlog). by rewrite released_nullptr.
  - apply get_Ok. rewrite Hobjs. apply lookup_insert_eq.
  - apply get_Ok. rewrite Hobjs, lookup_insert_ne by done. apply lookup_insert_eq.
  - intros l Hl1 Hl2. by rewrite Hobjs, !lookup_insert_ne.
Qed.

Lemma leaf_flat p : leaf flat_layout p.
Proof. by split. Qed.

Lemma move_assign_in_releases_then_transfers_witness :
  (∃ s', move_assign_in flat_layout (UserDeleter 2) 3%N 5%N st_example = (Ok 3%N, s') ∧
         log s' = [Invoke (UserDeleter 2) 7%N; Store 5%N nullptr; Store 3%N nullptr] ∧
         get 3%N s' = (Ok nullptr, s') ∧
         get 5%N s' = (Ok nullptr, s'))
  ∧
  move_assign_in flat_layout (UserDeleter 2) 3%N 3%N st_example = (Ok 3%N, st_example).
Proof.
  assert (Hne : 3%N ≠ 5%N) by discriminate.
  destruct (move_assign_in_releases_then_transfers flat_layout
              (UserDeleter 2) st_example 3%N 5%N 7%N nullptr eq_refl eq_refl Hne
              (λ _, leaf_flat 7%N))
    as [(s' & Hrun & Hnonnull & _ & Hthis & Hthat & _) [Hself _]].
  split; [|exact Hself].
  exists s'. split; [exact Hrun|]. split; [|split; assumption].
  apply Hnonnull. discriminate.
Defined.

Section EmptySource.
(** The implicit conversion from [U *] to [T *] of the converting
    constructor.  A null pointer converts to a null pointer. *)
Variable convert : N → N.
Hypothesis convert_nullptr : convert nullptr = nullptr.

(** X16. Moving from an instance [a] that holds null: the move constructor
    and the converting move constructor complete with both [a.get()] and
    [b.get()] null and no policy call; move-assigning [a] into a distinct
    instance [c] holding [R], when the object [R] points to has no
    [UniquePtr] member (or [R] is null), completes, calls the policy on [R]
    exactly once when [R] is not null and not at all when it is, and leaves
    both [c] and [a] holding null. *)
Theorem move_from_empty_source_is_inert
    (L : layout) (D : deleter) (s : state) (a c : N) (R : N) :
  objs s !! a = Some nullptr →
  objs s !! c = Some R →
  c ≠ a →
  (R ≠ nullptr → leaf L R) →
  (∃ b s', UniquePtr_move a s = (Ok b, s') ∧
           get a s' = (Ok nullptr, s') ∧
           get b s' = (Ok nullptr, s') ∧
           calls s' = calls s)
  ∧
  (∃ b s', UniquePtr_convert convert a s = (Ok b, s') ∧
           get a s' = (Ok nullptr, s') ∧
           get b s' = (Ok nullptr, s') ∧
           calls s' = calls s)
  ∧
  (∃ s', move_assign_in L D c a s = (Ok c, s') ∧
         (R ≠ nullptr → calls s' = calls s ++ [(D, R)]) ∧
         (R = nullptr → calls s' = calls s) ∧
         get c s' = (Ok nullptr, s') ∧
         get a s' = (Ok nullptr, s')).
Proof using convert_nullptr.
  intros Ha Hc Hne Hleaf. split; [|split].
  - rewrite UniquePtr_move_convert.
    destruct (UniquePtr_convert_Ok id s a nullptr Ha)
      as (b & s' & Hrun & Hba & _ & Hobjs & _ & Hlog).
    destruct (moved_state s s' a b _ Hba Hobjs) as (Hga & Hgb & _).
    exists b, s'. repeat split; try done.
    by apply (calls_stores _ _ _ Hlog).
  - destruct (UniquePtr_convert_Ok convert s a nullptr Ha)
      as (b & s' & Hrun & Hba & _ & Hobjs & _ & Hlog).
    destruct (moved_state s s' a b _ Hba Hobjs) as (Hga & Hgb & _).
    rewrite convert_nullptr in Hgb.
    exists b, s'. repeat split; try done.
    by apply (calls_stores _ _ _ Hlog).
  - rewrite (move_assign_in_leaf L D s c a R Hc Hleaf).
    destruct (move_assign_Ok D s c a R nullptr Hc Ha Hne)
      as (s' & Hrun & Hobjs & Hlog).
    exists s'. split; [exact Hrun|]. repeat split.
    + intros HR. unfold calls.
      rewrite Hlog, calls_app, released_nonnull; done.
    + intros ->. apply (calls_stores _ _ _ Hlog). by rewrite released_nullptr.
    + apply get_Ok. rewrite Hobjs. apply lookup_insert_eq.
    + apply get_Ok. rewrite Hobjs, lookup_insert_ne by done.
      apply lookup_insert_eq.
Qed.
End EmptySource.

Lemma move_from_empty_source_is_inert_witness :
  (∃ b s', UniquePtr_move 5%N st_example = (Ok b, s') ∧
           get 5%N s' = (Ok nullptr, s') ∧
           get b s' = (Ok nullptr, s') ∧
           calls s' = [])
  ∧
  (∃ b s', UniquePtr_convert to_second_base 5%N st_example = (Ok b, s') ∧
           get 5%N s' = (Ok nullptr, s') ∧
           get b s' = (Ok nullptr, s') ∧
           calls s' = [])
  ∧
  (∃ s', move_assign_in flat_layout (DefaultDeleter (TObject 1)) 3%N 5%N st_example
         = (Ok 3%N, s') ∧
         calls s' = [(DefaultDeleter (TObject 1), 7%N)] ∧
         get 3%N s' = (Ok nullptr, s') ∧
         get 5%N s' = (Ok nullptr, s')).
Proof.
  assert (Hne : 3%N ≠ 5%N) by discriminate.
  destruct (move_from_empty_source_is_inert to_second_base to_second_base_nullptr
              flat_layout (DefaultDeleter (TObject 1)) st_example 5%N 3%N 7%N
              eq_refl eq_refl Hne (λ _, leaf_flat 7%N))
    as (Hmove & Hconv & s' & Hrun & Hnonnull & _ & Hc & Ha).
  split; [exact Hmove|]. split; [exact Hconv|].
  exists s'. split; [exact Hrun|]. split; [|split; assumption].
  apply Hnonnull. discriminate.
Defined.

(** ** Single ownership, for objects without owning members *)

(** X1. With a policy that frees, destroying a live instance of a managed
    state whose object has no [UniquePtr] member completes and leaves a
    managed state: the instance is gone, the block it owned is no longer
    allocated, and every other instance still holds its handle to a block
    that is still allocated. *)
Theorem destructor_keeps_managed
    (L : layout) (D : deleter) (s : state) (a : N) (H : N) :
  frees D = true →
  managed s →
  objs s !! a = Some H →
  (H ≠ nullptr → leaf L H) →
  ∃ s', destructor_in L D a s = (Ok tt, s') ∧
        managed s' ∧
        objs s' !! a = None ∧
        (H ≠ nullptr → H ∉ heap s') ∧
        (∀ b q, b ≠ a → objs s !! b = Some q → q ≠ nullptr →
                objs s' !! b = Some q ∧ q ∈ heap s').
Proof.
  intros HD Hm Ha Hleaf. rewrite (destructor_in_leaf L D s a H Ha Hleaf).
  eexists. split; [exact (destructor_run D s a H Ha)|].
  pose proof (destructor_managed D s a H HD Hm Ha) as Hm'.
  split; [exact Hm'|]. simpl. rewrite objs_after_release.
  split; [apply lookup_delete_eq|]. split.
  - intros HH. rewrite heap_after_release, release_heap_frees by done.
    rewrite to_bool_true by done.
    apply not_elem_of_difference. right. by apply elem_of_singleton.
  - intros b q Hba Hb Hq.
    assert (Hb' : delete a (objs s) !! b = Some q) by (by rewrite lookup_delete_ne).
    split; [exact Hb'|].
    destruct Hm' as (_ & Hlive & _). apply (Hlive b q). simpl.
    rewrite objs_after_release. by split.
Qed.

Lemma destructor_keeps_managed_witness :
  ∃ s', destructor_in flat_layout (DefaultDeleter (TObject 1)) 3%N st_example
        = (Ok tt, s') ∧
        managed s' ∧ objs s' !! 3%N = None ∧ 7%N ∉ heap s'.
Proof.
  destruct (destructor_keeps_managed flat_layout (DefaultDeleter (TObject 1))
              st_example 3%N 7%N eq_refl managed_st_example eq_refl
              (λ _, leaf_flat 7%N))
    as (s' & Hrun & Hm & Hgone & Hfreed & _).
  exists s'. split; [exact Hrun|]. split; [exact Hm|]. split; [exact Hgone|].
  apply Hfreed. discriminate.
Defined.

(** X2. Move construction from a live instance [a] of a managed state
    completes and makes a new instance [b], at a location that held no
    instance before and differs from [a]; afterwards [a] holds null and [b]
    holds the handle [a] held; the state is managed, the heap is untouched,
    and a non-null handle has exactly one owner, [b]. *)
Theorem move_construct_keeps_managed (s : state) (a : N) (H : N) :
  managed s →
  objs s !! a = Some H →
  ∃ b s', UniquePtr_move a s = (Ok b, s') ∧
          b ≠ a ∧
          objs s !! b = None ∧
          get a s' = (Ok nullptr, s') ∧
          get b s' = (Ok H, s') ∧
          (∀ l, l ≠ a → l ≠ b → objs s' !! l = objs s !! l) ∧
          managed s' ∧
          heap s' = heap s ∧
          (H ≠ nullptr → ∀ c, owns (objs s') c H ↔ c = b).
Proof.
  intros Hm Ha.
  destruct (move_construct_managed s a H Hm Ha)
    as (b & s' & Hrun & Hm' & Hheap & Hobjs).
  assert (Hfresh : objs s !! b = None ∧ b ≠ a).
  { rewrite UniquePtr_move_convert in Hrun.
    destruct (UniquePtr_convert_Ok id s a H Ha)
      as (b0 & s0 & Hrun0 & Hne & Hb & _).
    rewrite Hrun0 in Hrun. by injection Hrun as <- _. }
  destruct Hfresh as [Hb Hne].
  destruct (moved_state s s' a b H Hne Hobjs) as (Hga & Hgb & Hframe).
  exists b, s'. split; [exact Hrun|]. split; [exact Hne|]. split; [exact Hb|].
  split; [exact Hga|]. split; [exact Hgb|]. split; [exact Hframe|].
  split; [exact Hm'|]. split; [exact Hheap|].
  intros HH c. split.
  - intros Hc. destruct Hm' as (Hsole & _). apply (Hsole c b H Hc).
    rewrite Hobjs. split; [apply lookup_insert_eq|done].
  - intros ->. rewrite Hobjs. split; [apply lookup_insert_eq|done].
Qed.

Lemma move_construct_keeps_managed_witness :
  ∃ b s', UniquePtr_move 3%N st_example = (Ok b, s') ∧
          b ≠ 3%N ∧
          get 3%N s' = (Ok nullptr, s') ∧
          get b s' = (Ok 7%N, s') ∧
          managed s' ∧ heap s' = heap st_example ∧
          (∀ c, owns (objs s') c 7%N ↔ c = b).
Proof.
  destruct (move_construct_keeps_managed st_example 3%N 7%N
              managed_st_example eq_refl)
    as (b & s' & Hrun & Hne & _ & Hga & Hgb & _ & Hm & Hheap & Hown).
  exists b, s'. split; [exact Hrun|]. split; [exact Hne|].
  split; [exact Hga|]. split; [exact Hgb|].
  split; [exact Hm|]. split; [exact Hheap|].
  apply Hown. discriminate.
Defined.

(** X3. With a policy that frees, move assignment between live instances of
    a managed state (distinct or not), when the object the target owns has
    no [UniquePtr] member, completes and leaves a managed state: the block
    the target owned is freed, the block of the source now has the target
    as its one owner. *)
Theorem move_assign_keeps_managed
    (L : layout) (D : deleter) (s : state) (this that : N) (P Q : N) :
  frees D = true →
  managed s →
  objs s !! this = Some P →
  objs s !! that = Some Q →
  (P ≠ nullptr → leaf L P) →
  ∃ s', move_assign_in L D this that s = (Ok this, s') ∧
        managed s' ∧
        (this ≠ that → P ≠ nullptr → P ∉ heap s') ∧
        (this ≠ that → get that s' = (Ok nullptr, s')) ∧
        get this s' = (Ok Q, s') ∧
        (Q ≠ nullptr → Q ∈ heap s' ∧ ∀ c, owns (objs s') c Q ↔ c = this).
Proof.
  intros HD Hm Hthis Hthat Hleaf.
  rewrite (move_assign_in_leaf L D s this that P Hthis Hleaf).
  destruct (decide (this = that)) as [->|Hne].
  - exists s. split; [apply move_assign_self|]. split; [exact Hm|].
    split; [done|]. split; [done|]. split; [by apply get_Ok|]. intros HQ.
    destruct Hm as (Hsole & Hlive & _).
    assert (Hown : owns (objs s) that Q) by (by split).
    split; [by apply (Hlive that Q)|]. intros c. split.
    + intros Hc. by apply (Hsole c that Q).
    + by intros ->.
  - destruct (move_assign_managed D s this that P Q HD Hm Hthis Hthat Hne)
      as (s' & Hrun & Hm' & Hobjs & Hheap).
    exists s'. split; [exact Hrun|]. split; [exact Hm'|]. split; [|split; [|split]].
    + intros _ HP. rewrite Hheap, to_bool_true by done.
      apply not_elem_of_difference. right. by apply elem_of_singleton.
    + intros _. apply get_Ok. rewrite Hobjs, lookup_insert_ne by done.
      apply lookup_insert_eq.
    + apply get_Ok. rewrite Hobjs. apply lookup_insert_eq.
    + intros HQ.
      assert (Hown : owns (objs s') this Q).
      { rewrite Hobjs. split; [apply lookup_insert_eq|done]. }
      destruct Hm' as (Hsole & Hlive & _).
      split; [by apply (Hlive this Q)|]. intros c. split.
      * intros Hc. by apply (Hsole c this Q).
      * by intros ->.
Qed.

Lemma move_assign_keeps_managed_witness :
  ∃ s', move_assign_in flat_layout (DefaultDeleter (TObject 1)) 5%N 3%N st_example
        = (Ok 5%N, s') ∧
        managed s' ∧ get 5%N s' = (Ok 7%N, s') ∧ get 3%N s' = (Ok nullptr, s') ∧
        7%N ∈ heap s' ∧ (∀ c, owns (objs s') c 7%N ↔ c = 5%N).
Proof.
  assert (Hleaf : nullptr ≠ nullptr → leaf flat_layout nullptr)
    by (intros _; apply leaf_flat).
  destruct (move_assign_keeps_managed flat_layout (DefaultDeleter (TObject 1))
              st_example 5%N 3%N nullptr 7%N eq_refl managed_st_example
              eq_refl eq_refl Hleaf)
    as (s' & Hrun & Hm & _ & Hthat & Hthis & Hown).
  assert (Hnonnull : 7%N ≠ nullptr) by discriminate.
  assert (Hne : 5%N ≠ 3%N) by discriminate.
  destruct (Hown Hnonnull) as [Hin Hsole].
  exists s'. split; [exact Hrun|]. split; [exact Hm|]. split; [exact Hthis|].
  split; [exact (Hthat Hne)|]. split; assumption.
Defined.

Section ClientInProperties.
Context {Args : Type}.
Variable L : layout.
Variable operator_new : gset N → exn + N.
Variable T_ctor : Args → option exn.
Variable T_default_init : option exn.
Variable Deleter : deleter.
Hypothesis operator_new_fresh :
  ∀ h p, operator_new h = inr p → p ≠ nullptr ∧ p ∉ h.
Hypothesis Deleter_frees : frees Deleter = true.
Hypothesis no_owning_members : ∀ p, leaf L p.

Lemma run_in_flat (prog : list stmt) s :
  run_in L operator_new T_ctor T_default_init Deleter prog s
  = run operator_new T_ctor T_default_init Deleter prog s.
Proof using no_owning_members.
  revert s. induction prog as [|c rest IH]; intros s; [done|]. simpl.
  assert (Hc : exec_in L operator_new T_ctor T_default_init Deleter c s
               = exec operator_new T_ctor T_default_init Deleter c s).
  { destruct c as [args| | |that|this that|this|this]; simpl; try done.
    - apply bind_congr. by apply move_assign_in_flat.
    - by apply reset_in_flat.
    - by apply destructor_in_flat. }
  unfold mbind, M_bind. rewrite Hc.
  destruct (exec operator_new T_ctor T_default_init Deleter c s)
    as [[[]|e| |] s0]; [apply IH|done..].
Qed.

(** X7. Client code over an element type without [UniquePtr] members that
    only makes instances with the factories and the default constructor,
    moves them, move-assigns them, resets them with [reset()] and lets them
    go out of scope, with a policy that frees: if it starts in a managed
    state and runs to its end, or stops at an exception thrown by a
    factory, the state it leaves is managed; when in that state no instance
    is left, no block is left allocated. *)
Theorem client_code_stays_managed (prog : list stmt) (s : state) r s' :
  managed s →
  run_in L operator_new T_ctor T_default_init Deleter prog s = (r, s') →
  completes r →
  managed s' ∧ (objs s' = ∅ → heap s' = ∅).
Proof using operator_new_fresh Deleter_frees no_owning_members.
  intros Hm Hrun Hr. rewrite run_in_flat in Hrun.
  exact (run_managed operator_new T_ctor T_default_init Deleter
           operator_new_fresh Deleter_frees prog s r s' Hm Hrun Hr).
Qed.
End ClientInProperties.

Lemma client_code_stays_managed_witness :
  ∃ s', run_in flat_layout (bump_new 3) picky_ctor None (DefaultDeleter (TObject 1))
          client_example st_initial = (Ok tt, s') ∧
        managed s' ∧ objs s' = ∅ ∧ heap s' = ∅.
Proof.
  set (final := (run_in flat_layout (bump_new 3) picky_ctor None
                   (DefaultDeleter (TObject 1)) client_example st_initial).2).
  assert (Hrun : run_in flat_layout (bump_new 3) picky_ctor None
                   (DefaultDeleter (TObject 1)) client_example st_initial
                 = (Ok tt, final))
    by (vm_compute; reflexivity).
  assert (Hobjs : objs final = ∅) by (vm_compute; reflexivity).
  destruct (client_code_stays_managed flat_layout (bump_new 3) picky_ctor None
              (DefaultDeleter (TObject 1)) (bump_new_fresh 3) eq_refl leaf_flat
              client_example st_initial (Ok tt) final
              managed_by_initial Hrun I) as [Hm Hheap].
  exists final. split; [exact Hrun|]. split; [exact Hm|].
  split; [exact Hobjs|exact (Hheap Hobjs)].
Defined.

(** X10. After a move assignment between distinct instances that hold
    two different non-null handles to objects without [UniquePtr] members,
    and the destruction of both instances, each of the two handles has been
    released exactly once: the target's old handle at the assignment, the
    source's handle when the target is destroyed; destroying the source
    calls no policy. *)
Theorem move_assigned_handles_released_once
    (L : layout) (D : deleter) (s : state) (this that : N) (P Q : N) :
  objs s !! this = Some P →
  objs s !! that = Some Q →
  this ≠ that →
  P ≠ nullptr →
  Q ≠ nullptr →
  P ≠ Q →
  leaf L P →
  leaf L Q →
  ∃ s1 s2 s3,
    move_assign_in L D this that s = (Ok this, s1) ∧
    calls s1 = calls s ++ [(D, P)] ∧
    destructor_in L D that s1 = (Ok tt, s2) ∧
    calls s2 = calls s1 ∧
    destructor_in L D this s2 = (Ok tt, s3) ∧
    calls s3 = calls s ++ [(D, P); (D, Q)] ∧
    objs s3 = delete this (delete that (objs s)).
Proof.
  intros Hthis Hthat Hne HP HQ _ HleafP HleafQ.
  rewrite (move_assign_in_leaf L D s this that P Hthis (λ _, HleafP)).
  destruct (move_assign_Ok D s this that P Q Hthis Hthat Hne)
    as (s1 & Hrun & Hobjs1 & Hlog1).
  rewrite released_nonnull in Hlog1 by done.
  assert (Hthat1 : objs s1 !! that = Some nullptr).
  { rewrite Hobjs1, lookup_insert_ne by done. apply lookup_insert_eq. }
  assert (Hd1' : destructor_in L D that s1 = destructor D that s1).
  { by apply (destructor_in_leaf L D s1 that nullptr). }
  destruct (destructor_Ok D s1 that nullptr Hthat1) as (s2 & Hd1 & Hobjs2 & Hlog2).
  rewrite released_nullptr, app_nil_r in Hlog2.
  assert (Hthis2 : objs s2 !! this = Some Q).
  { rewrite Hobjs2, lookup_delete_ne, Hobjs1 by done. apply lookup_insert_eq. }
  assert (Hd2' : destructor_in L D this s2 = destructor D this s2).
  { by apply (destructor_in_leaf L D s2 this Q). }
  destruct (destructor_Ok D s2 this Q Hthis2) as (s3 & Hd2 & Hobjs3 & Hlog3).
  rewrite released_nonnull in Hlog3 by done.
  exists s1, s2, s3. rewrite Hd1', Hd2'. repeat split; try done.
  - by rewrite (calls_log s s1 _ Hlog1).
  - unfold calls. by rewrite Hlog2.
  - apply (calls_log s s3
             [Invoke D P; Store that nullptr; Store this Q; Invoke D Q]).
    by rewrite Hlog3, Hlog2, Hlog1, <- app_assoc.
  - rewrite Hobjs3, Hobjs2, Hobjs1.
    rewrite (delete_insert_ne _ that this) by done.
    by rewrite delete_insert_eq, delete_insert_eq.
Qed.

Lemma move_assigned_handles_released_once_witness :
  ∃ s1 s2 s3,
    move_assign_in flat_layout (UserDeleter 2) 3%N 5%N st_two_owners = (Ok 3%N, s1) ∧
    destructor_in flat_layout (UserDeleter 2) 5%N s1 = (Ok tt, s2) ∧
    destructor_in flat_layout (UserDeleter 2) 3%N s2 = (Ok tt, s3) ∧
    calls s3 = [(UserDeleter 2, 7%N); (UserDeleter 2, 9%N)] ∧
    objs s3 = ∅.
Proof.
  assert (Hne : 3%N ≠ 5%N) by discriminate.
  assert (H7 : 7%N ≠ nullptr) by discriminate.
  assert (H9 : 9%N ≠ nullptr) by discriminate.
  assert (H79 : 7%N ≠ 9%N) by discriminate.
  destruct (move_assigned_handles_released_once flat_layout (UserDeleter 2)
              st_two_owners 3%N 5%N 7%N 9%N eq_refl eq_refl Hne H7 H9 H79
              (leaf_flat 7%N) (leaf_flat 9%N))
    as (s1 & s2 & s3 & Hrun & _ & Hd1 & _ & Hd2 & Hcalls & Hobjs).
  exists s1, s2, s3. split; [exact Hrun|]. split; [exact Hd1|].
  split; [exact Hd2|]. split; [exact Hcalls|].
  rewrite Hobjs. vm_compute. reflexivity.
Defined.

(** ** Choice of the release policy *)



(** ** The source of a move assignment inside the object the target owns *)

Lemma destroy_members_gone rec base ms s r s' :
  match rec with
  | Some release =>
      ∀ D q t r0 t', release D q t = (r0, t') →
        (r0 = Ok tt ∨ r0 = NoObject) ∧
        (∀ l, objs t !! l = None → objs t' !! l = None)
  | None => True
  end →
  (∀ t, ∃ t', base t = (Ok tt, t') ∧ objs t' = objs t) →
  foldr (destroy_member rec) base ms s = (r, s') →
  (r = Ok tt ∨ r = NoObject) ∧
  (∀ l, objs s !! l = None → objs s' !! l = None) ∧
  (r = Ok tt → ∀ m, m ∈ ms → objs s' !! m.1 = None).
Proof.
  intros Hrec Hbase. revert s.
  induction ms as [|m ms IH]; intros s Hrun; simpl in Hrun.
  - destruct (Hbase s) as (t' & Hb & Hobjs). rewrite Hb in Hrun.
    injection Hrun as <- <-. split; [by left|]. split.
    + intros l. by rewrite Hobjs.
    + intros _ m Hm. by apply elem_of_nil in Hm.
  - unfold destroy_member at 1 in Hrun.
    destruct (objs s !! m.1) as [q|] eqn:Hm.
    2:{ injection Hrun as <- <-. split; [by right|]. split; [done|]. done. }
    set (s1 := set_objs (delete m.1) s) in Hrun.
    assert (Hs1 : ∀ l, objs s !! l = None → objs s1 !! l = None).
    { intros l Hl. subst s1; simpl. apply lookup_delete_None. by right. }
    assert (Hgone1 : objs s1 !! m.1 = None).
    { subst s1; simpl. apply lookup_delete_eq. }
    assert (Hrest : ∀ t, (∀ l, objs s1 !! l = None → objs t !! l = None) →
              foldr (destroy_member rec) base ms t = (r, s') →
              (r = Ok tt ∨ r = NoObject) ∧
              (∀ l, objs s !! l = None → objs s' !! l = None) ∧
              (r = Ok tt → ∀ m0, m0 ∈ m :: ms → objs s' !! m0.1 = None)).
    { intros t Ht Hfold. destruct (IH t Hfold) as (Hr & Hmono & Hgone).
      split; [exact Hr|]. split; [by auto|].
      intros HOk m0 Hm0. apply elem_of_cons in Hm0 as [->|Hm0]; [|by auto].
      by apply Hmono, Ht. }
    destruct (to_bool q).
    + destruct rec as [release|].
      2:{ injection Hrun as <- <-. split; [by right|]. split; [exact Hs1|]. done. }
      unfold mbind, M_bind in Hrun.
      destruct (release m.2 q s1) as [r0 t] eqn:Hrel.
      destruct (Hrec m.2 q s1 r0 t Hrel) as [[->| ->] Hmono].
      * by apply (Hrest t).
      * injection Hrun as <- <-. split; [by right|]. split; [by auto|]. done.
    + by apply (Hrest s1).
Qed.

Lemma release_object_gone L fuel D p s r s' :
  release_object L fuel D p s = (r, s') →
  (r = Ok tt ∨ r = NoObject) ∧
  (∀ l, objs s !! l = None → objs s' !! l = None) ∧
  (r = Ok tt → frees D = true →
   ∀ m, m ∈ members L (complete L p) → objs s' !! m.1 = None).
Proof.
  revert D p s r s'. induction fuel as [|fuel IH]; intros D p s r s' Hrun;
    simpl in Hrun; destruct (frees D) eqn:HD;
    try (injection Hrun as <- <-; split; [by left|]; split; done).
  - apply destroy_members_gone in Hrun as (Hr & Hmono & Hgone); [|done|].
    + split; [exact Hr|]. split; [exact Hmono|]. by auto.
    + intros t. by eexists.
  - apply destroy_members_gone in Hrun as (Hr & Hmono & Hgone).
    + split; [exact Hr|]. split; [exact Hmono|]. by auto.
    + intros D' q t r0 t' Hrel. destruct (IH D' q t r0 t' Hrel) as (? & ? & _).
      by split.
    + intros t. by eexists.
Qed.

(** X17. Whatever the element type: with a policy that frees, when the
    source of a move assignment is a member of the object that the target
    owns, the assignment never completes.  Either line 84 stops at an
    object that is destroyed twice, or it ends the lifetime of the source
    and line 85 then calls [exchange] on an instance that is no longer
    alive. *)
Theorem move_assign_from_owned_member_fails
    (L : layout) (D D' : deleter) (s : state) (this that : N) (P : N) :
  frees D = true →
  objs s !! this = Some P →
  P ≠ nullptr →
  this ≠ that →
  (that, D') ∈ members L (complete L P) →
  (move_assign_in L D this that s).1 = NoObject ∧
  ∀ s1, release_if_owned_in L D P s = (Ok tt, s1) →
        objs s1 !! that = None ∧
        exchange (m_p that q_mutable) nullptr s1 = (NoObject, s1) ∧
        move_assign_in L D this that s = (NoObject, s1).
Proof.
  intros HD Hthis HP Hne Hmember.
  assert (Hstep : ∀ s1, release_if_owned_in L D P s = (Ok tt, s1) →
            objs s1 !! that = None ∧
            exchange (m_p that q_mutable) nullptr s1 = (NoObject, s1) ∧
            move_assign_in L D this that s = (NoObject, s1)).
  { intros s1 Hrel.
    assert (Hthat : objs s1 !! that = None).
    { unfold release_if_owned_in in Hrel. rewrite to_bool_true in Hrel by done.
      destruct (release_object_gone L _ D P s _ _ Hrel) as (_ & _ & Hgone).
      exact (Hgone eq_refl HD (that, D') Hmember). }
    split; [exact Hthat|]. split; [by apply exchange_NoObject|].
    unfold move_assign_in. rewrite decide_True by done.
    apply bind_NoObject.
    rewrite (bind_Ok _ _ _ _ _ (load_Ok _ _ _ Hthis)).
    rewrite (bind_Ok _ _ _ _ _ Hrel).
    by apply bind_NoObject, exchange_NoObject. }
  split; [|exact Hstep].
  destruct (release_if_owned_in L D P s) as [r s1] eqn:Hrel.
  assert (Hr : r = Ok tt ∨ r = NoObject).
  { unfold release_if_owned_in in Hrel. rewrite to_bool_true in Hrel by done.
    by destruct (release_object_gone L _ D P s _ _ Hrel) as (? & _). }
  destruct Hr as [-> | ->].
  - destruct (Hstep s1 eq_refl) as (_ & _ & Hrun). by rewrite Hrun.
  - unfold move_assign_in. rewrite decide_True by done.
    assert (Hbody :
      (p ← load this; release_if_owned_in L D p;;
       q ← exchange (m_p that q_mutable) nullptr; assign this q) s
      = (NoObject, s1)).
    { rewrite (bind_Ok _ _ _ _ _ (load_Ok _ _ _ Hthis)).
      by apply bind_NoObject. }
    by rewrite (bind_NoObject _ _ _ _ Hbody).
Qed.

Lemma move_assign_from_owned_member_fails_witness :
  (move_assign_in Node_layout (DefaultDeleter Node) 3%N 24%N st_list).1 = NoObject.
Proof.
  assert (HP : 16%N ≠ nullptr) by discriminate.
  assert (Hne : 3%N ≠ 24%N) by discriminate.
  assert (Hmember : (24%N, DefaultDeleter Node)
                    ∈ members Node_layout (complete Node_layout 16%N)).
  { vm_compute. apply list_elem_of_here. }
  exact (proj1 (move_assign_from_owned_member_fails Node_layout
                  (DefaultDeleter Node) (DefaultDeleter Node) st_list
                  3%N 24%N 16%N eq_refl eq_refl HP Hne Hmember)).
Defined.

(** ** Handles adjusted by the converting constructor *)

Lemma invoke_in_no_members L D p s :
  frees D = true →
  members L (complete L p) = [] →
  invoke_in L D p s
  = (Ok tt, set_heap (λ h, h ∖ {[complete L p]}) (push_log (Invoke D p) s)).
Proof.
  intros HD Hmembers. unfold invoke_in.
  destruct (size (objs s)); simpl; by rewrite HD, Hmembers.
Qed.

(** X18. A handle adjusted by the converting constructor is released as the
    object it points into.  After the converting move constructor has made
    [b] from an instance [a] holding a non-null [H], where the converted
    handle points into the block at [H] and that object has no [UniquePtr]
    member, destroying [b] with a policy that frees calls the policy once,
    on the converted handle, and the block given back is [H]. *)
Theorem converted_handle_frees_its_block
    (L : layout) (convert : N → N) (D : deleter) (s : state) (a : N) (H : N) :
  frees D = true →
  objs s !! a = Some H →
  H ≠ nullptr →
  convert H ≠ nullptr →
  complete L (convert H) = H →
  members L H = [] →
  ∃ b s1 s2,
    UniquePtr_convert convert a s = (Ok b, s1) ∧
    get b s1 = (Ok (convert H), s1) ∧
    destructor_in L D b s1 = (Ok tt, s2) ∧
    calls s2 = calls s ++ [(D, convert H)] ∧
    heap s2 = heap s ∖ {[H]} ∧
    objs s2 = <[a := nullptr]> (objs s).
Proof.
  intros HD Ha HH Hcv Hcomplete Hmembers.
  destruct (UniquePtr_convert_Ok convert s a H Ha)
    as (b & s1 & Hrun & Hne & Hb & Hobjs & Hheap & Hlog).
  assert (Hb1 : objs s1 !! b = Some (convert H)).
  { rewrite Hobjs. apply lookup_insert_eq. }
  exists b, s1. eexists. split; [exact Hrun|]. split; [by apply get_Ok|].
  assert (Hrel : release_if_owned_in L D (convert H) s1
                 = (Ok tt, set_heap (λ h, h ∖ {[H]})
                             (push_log (Invoke D (convert H)) s1))).
  { unfold release_if_owned_in. rewrite to_bool_true by done.
    rewrite invoke_in_no_members by (by rewrite ?Hcomplete).
    by rewrite Hcomplete. }
  split.
  { unfold destructor_in.
    rewrite (bind_Ok _ _ _ _ _ (load_Ok _ _ _ Hb1)).
    by rewrite (bind_Ok _ _ _ _ _ Hrel). }
  simpl. split; [|split].
  - unfold calls; simpl. rewrite Hlog, <- app_assoc. by rewrite calls_app.
  - by rewrite Hheap.
  - rewrite Hobjs. apply delete_insert_id.
    by rewrite lookup_insert_ne.
Qed.

Lemma converted_handle_frees_its_block_witness :
  ∃ b s1 s2,
    UniquePtr_convert to_second_base 3%N st_example = (Ok b, s1) ∧
    get b s1 = (Ok 15%N, s1) ∧
    destructor_in second_base_layout (DefaultDeleter (TObject 1)) b s1 = (Ok tt, s2) ∧
    calls s2 = [(DefaultDeleter (TObject 1), 15%N)] ∧
    heap s2 = ∅.
Proof.
  assert (H7 : 7%N ≠ nullptr) by discriminate.
  assert (H15 : to_second_base 7%N ≠ nullptr) by discriminate.
  destruct (converted_handle_frees_its_block second_base_layout to_second_base
              (DefaultDeleter (TObject 1)) st_example 3%N 7%N
              eq_refl eq_refl H7 H15 eq_refl eq_refl)
    as (b & s1 & s2 & Hrun & Hget & Hd & Hcalls & Hheap & _).
  exists b, s1, s2. split; [exact Hrun|]. split; [exact Hget|].
  split; [exact Hd|]. split; [exact Hcalls|].
  rewrite Hheap. vm_compute. reflexivity.
Defined.

End SimpleSTL.
